(** * spotify2bs: the resolution engine of [spotify2bs.py]

    A shallow embedding of the search, selection, download and driver
    functions of [spotify2bs.py], and the properties of them that the
    specification states.

    Conventions of the model.
    - Python text is a [string]: the UTF-8 bytes of the text.  A byte
      of 128 or more belongs to a character outside ASCII.
    - [str.lower], [rapidfuzz.fuzz.partial_ratio] and the reading of a
      zip archive are library code: they are variables of the sections
      that use them.
    - A number read from JSON is a rational ([Q]).
    - The catalogue and the disk are explicit state, threaded through
      every function that touches them; an exception is a result, not
      a jump.  Pauses ([time.sleep], the back-off of the retry
      decorator) and logging change none of the values modelled and
      are left out. *)

From Stdlib Require Import List String Ascii Bool Arith ZArith QArith Lia.
From Stdlib Require Import Permutation Sorted.
Import ListNotations.

Local Close Scope Q_scope.
Local Open Scope nat_scope.
Local Open Scope list_scope.

Infix "+:+" := String.append (at level 60, right associativity).

(** ** Python text *)

Module PyStr.

Definition code (c : ascii) : nat := nat_of_ascii c.

Definition between (lo hi n : nat) : bool := (lo <=? n) && (n <=? hi).

Definition is_upper (c : ascii) : bool := between 65 90 (code c).
Definition is_lower (c : ascii) : bool := between 97 122 (code c).
Definition is_digit (c : ascii) : bool := between 48 57 (code c).

Fixpoint keep (f : ascii -> bool) (s : string) : string :=
  match s with
  | EmptyString => EmptyString
  | String c s' => if f c then String c (keep f s') else keep f s'
  end.

Fixpoint map_chars (f : ascii -> ascii) (s : string) : string :=
  match s with
  | EmptyString => EmptyString
  | String c s' => String (f c) (map_chars f s')
  end.

Definition is_empty (s : string) : bool :=
  match s with EmptyString => true | String _ _ => false end.

(** The characters that [str.isspace] accepts below 128. *)
Definition is_space (c : ascii) : bool :=
  between 9 13 (code c) || between 28 32 (code c).

(** Dropping the leading, and the trailing, characters that [f]
    accepts. *)
Fixpoint drop_leading (f : ascii -> bool) (s : string) : string :=
  match s with
  | EmptyString => EmptyString
  | String c s' => if f c then drop_leading f s' else s
  end.

Fixpoint drop_trailing (f : ascii -> bool) (s : string) : string :=
  match s with
  | EmptyString => EmptyString
  | String c s' =>
      let r := drop_trailing f s' in
      if f c && is_empty r then EmptyString else String c r
  end.

(** [s.strip()] *)
Definition strip (s : string) : string :=
  drop_trailing is_space (drop_leading is_space s).

Fixpoint all_chars (f : ascii -> bool) (s : string) : bool :=
  match s with
  | EmptyString => true
  | String c s' => f c && all_chars f s'
  end.

(** [s.replace(a, b)] for one-character [a] and [b]. *)
Definition replace (a b : ascii) (s : string) : string :=
  map_chars (fun c => if Ascii.eqb c a then b else c) s.

(** ASCII case folding: what [str.lower] does to ASCII text. *)
Definition lower_char (c : ascii) : ascii :=
  if is_upper c then ascii_of_nat (code c + 32) else c.

Definition ascii_lower (s : string) : string := map_chars lower_char s.

(** [urllib.parse.quote] with an empty [safe] set: every byte that is not a
    letter, a digit or one of [_.-~] becomes [%XX]. *)
Definition unreserved (c : ascii) : bool :=
  is_upper c || is_lower c || is_digit c
  || Ascii.eqb c "_" || Ascii.eqb c "." || Ascii.eqb c "-" || Ascii.eqb c "~".

Definition hex_digit (n : nat) : ascii :=
  nth n (list_ascii_of_string "0123456789ABCDEF") "0"%char.

Fixpoint quote (s : string) : string :=
  match s with
  | EmptyString => EmptyString
  | String c s' =>
      if unreserved c then String c (quote s')
      else String "%" (String (hex_digit (code c / 16))
                         (String (hex_digit (code c mod 16)) (quote s')))
  end.

(** The character [chr(34)]. *)
Definition dquote : ascii := ascii_of_nat 34.

(** [str(x)] for a value that is a string or [None]. *)
Definition str (x : option string) : string :=
  match x with Some s => s | None => "None" end.

(** Truth value of a string or [None]: false for [None] and the empty string. *)
Definition truthy (x : option string) : bool :=
  match x with Some s => negb (is_empty s) | None => false end.

End PyStr.

(** ** Catalogue documents *)

Record Metadata := {
  songName : option string;
  songAuthorName : option string
}.

Record Stats := { score : option Q }.

(** One element of the [docs] list of a search answer.  The fields the
    code reads with [.get] may be absent; [id] is read with [d['id']]:
    every doc of the catalogue has it. *)
Record Doc := {
  id : string;
  name : option string;
  metadata : option Metadata;
  stats : option Stats
}.

(** [d.get('metadata', {}).get('songName', d.get('name', ''))] *)
Definition display_name (d : Doc) : string :=
  let fallback := match name d with Some s => s | None => EmptyString end in
  match metadata d with
  | Some m => match songName m with Some s => s | None => fallback end
  | None => fallback
  end.

(** [d.get('metadata', {}).get('songAuthorName', '')] *)
Definition author_name (d : Doc) : string :=
  match metadata d with
  | Some m => match songAuthorName m with Some s => s | None => EmptyString end
  | None => EmptyString
  end.

(** [d.get('stats', {}).get('score', 0)] *)
Definition doc_score (d : Doc) : Q :=
  match stats d with
  | Some st => match score st with Some x => x | None => 0%Q end
  | None => 0%Q
  end.

(** ** Configuration constants *)

Definition OUT_DIR : string := "maps".
Definition MIN_RATE : Q := 0.5%Q.

(** ** The outside world: catalogue and disk *)

(** The body of an answer, as [r.json()] reads it: no JSON, or a JSON
    object, with its [docs] when it has the field.  A body that is
    JSON is taken to follow the schema of the catalogue: an object
    whose [docs] is a list of docs. *)
Inductive Body :=
| NotJson
| Json (docs : option (list Doc)).

Record Response := {
  status_code : Z;
  json_body : Body;
  content : string
}.

(** What [requests.get] gives: a response, or an exception of
    [requests] that is not an [HTTPError] (no connection, timeout). *)
Inductive Reply :=
| Answer (r : Response)
| NoAnswer.

Inductive Request :=
| SearchQuoted (q : string)
| SearchText (q : string)
| SearchAdvanced (q : string)
| DownloadKey (bs_id : string).

Definition url (r : Request) : string :=
  match r with
  | SearchQuoted q =>
      "https://api.beatsaver.com/search/text/0?sortOrder=Relevance&q="
        +:+ PyStr.quote (String PyStr.dquote q +:+ String PyStr.dquote EmptyString)
  | SearchText q =>
      "https://api.beatsaver.com/search/text/0?sortOrder=Relevance&q="
        +:+ PyStr.quote q
  | SearchAdvanced q =>
      "https://api.beatsaver.com/search/advanced?sortOrder=Relevance&q="
        +:+ PyStr.quote q +:+ "&page=0"
  | DownloadKey bs_id =>
      "https://beatsaver.com/api/download/key/" +:+ bs_id
  end.

(** The catalogue answers the latest request knowing every URL it was
    asked so far (oldest first, the latest one last). *)
Definition Server := list string -> Reply.

Definition Path := list string.

Inductive FsOp :=
| MkDir (p : Path)
| Store (p : Path) (data : string)
| Remove (p : Path).

Record World := {
  server : Server;
  sent : list Request;     (* the requests issued so far, oldest first *)
  disk : list FsOp         (* the disk operations done so far, oldest first *)
}.

Inductive Exn :=
| HTTPError
| RetryError
| RequestException
| JSONDecodeError
| TypeError
| OSError
| BadZipFile.

Inductive Outcome (A : Type) :=
| Return (a : A)
| Raise (e : Exn).
Arguments Return {A} a.
Arguments Raise {A} e.

(** A computation: it reads and changes the world and returns or raises.
    What it did to the world before raising stays done. *)
Definition Prog (A : Type) := World -> Outcome A * World.

Definition ret {A} (a : A) : Prog A := fun w => (Return a, w).
Definition raise {A} (e : Exn) : Prog A := fun w => (Raise e, w).
Definition lift {A} (o : Outcome A) : Prog A := fun w => (o, w).

Definition bind {A B} (m : Prog A) (k : A -> Prog B) : Prog B :=
  fun w =>
    match m w with
    | (Return a, w') => k a w'
    | (Raise e, w') => (Raise e, w')
    end.

Notation "x <- m ;; k" := (bind m (fun x => k))
  (at level 100, m at next level, right associativity).

(** [requests.get(url, ...)] *)
Definition requests_get (req : Request) : Prog Response :=
  fun w =>
    let log := sent w ++ [req] in
    let w' := {| server := server w; sent := log; disk := disk w |} in
    match server w (map url log) with
    | Answer r => (Return r, w')
    | NoAnswer => (Raise RequestException, w')
    end.

(** ** BeatSaver search *)

(** [Response.raise_for_status] raises for 400..599. *)
Definition raise_for_status (r : Response) : Outcome unit :=
  if (400 <=? status_code r)%Z && (status_code r <? 600)%Z
  then Raise HTTPError else Return tt.

(** The [if/elif/else] that follows each of the three requests. *)
Definition tier_docs (r : Response) : Outcome (list Doc) :=
  if (status_code r =? 404)%Z then Return []
  else if (status_code r >=? 500)%Z then Raise HTTPError
  else
    match raise_for_status r with
    | Raise e => Raise e
    | Return _ =>
        match json_body r with
        | NotJson => Raise JSONDecodeError
        | Json None => Return []
        | Json (Some docs) => Return docs
        end
    end.

Definition nonempty {A} (l : list A) : bool :=
  match l with [] => false | _ :: _ => true end.

(** The body of [beat_search], without its decorator. *)
Definition beat_search_body (q : string) : Prog (list Doc) :=
  r <- requests_get (SearchQuoted q) ;;
  docs <- lift (tier_docs r) ;;
  if nonempty docs then ret docs else
  r2 <- requests_get (SearchText q) ;;
  docs <- lift (tier_docs r2) ;;
  if nonempty docs then ret docs else
  r3 <- requests_get (SearchAdvanced q) ;;
  docs <- lift (tier_docs r3) ;;
  ret docs.

(** [@retry(retry=retry_if_exception_type(requests.HTTPError),
            stop=stop_after_attempt(n))]: the function is called again,
    from its start, when it raises an [HTTPError]; after the [n]-th
    failed call the decorator raises [RetryError].  Any other exception
    and any result pass through. *)
Fixpoint retrying {A} (attempts : nat) (f : Prog A) : Prog A :=
  fun w =>
    match attempts with
    | O => (Raise RetryError, w)
    | S n =>
        match f w with
        | (Raise HTTPError, w') => retrying n f w'
        | res => res
        end
    end.

Definition beat_search (q : string) : Prog (list Doc) :=
  retrying 3 (beat_search_body q).

(** ** Selecting the best map *)

Definition Qltb (x y : Q) : bool :=
  match (x ?= y)%Q with Lt => true | _ => false end.

(** [l.sort(key=key, reverse=True)]: the stable sort by descending key.
    An element goes in front of the first one whose key is not above
    its own, so elements of equal key keep their order. *)
Fixpoint insert_reverse {A} (key : A -> Q) (x : A) (l : list A) : list A :=
  match l with
  | [] => [x]
  | y :: l' =>
      if Qltb (key x) (key y) then y :: insert_reverse key x l' else x :: l
  end.

Fixpoint sort_reverse {A} (key : A -> Q) (l : list A) : list A :=
  match l with
  | [] => []
  | x :: l' => insert_reverse key x (sort_reverse key l')
  end.

(** Lines 139-147 of [best_map]: sort, take the first, test its score. *)
Definition pick_top (filtered : list Doc) : option Doc :=
  match sort_reverse doc_score filtered with
  | [] => None
  | top :: _ =>
      if Qle_bool MIN_RATE (doc_score top) then Some top else None
  end.

Section Selector.

Variable lower : string -> string.
Variable partial_ratio : string -> string -> Q.

(** [name.lower() == track_name.lower()] *)
Definition title_matches (track_name : string) (d : Doc) : bool :=
  String.eqb (lower (display_name d)) (lower track_name).

(** The score the artist gate compares with 80. *)
Definition artist_score (artist_name : string) (d : Doc) : Q :=
  partial_ratio (lower artist_name) (lower (author_name d)).

(** [false] when the loop reaches [continue]. *)
Definition artist_gate (artist_name : option string) (d : Doc) : bool :=
  if PyStr.truthy artist_name then
    negb (Qltb (artist_score (PyStr.str artist_name) d) 80)
  else true.

(** The [for d in docs] loop of [best_map]; [filtered] is the list
    built so far. *)
Fixpoint filter_loop (track_name : string) (artist_name : option string)
    (docs filtered : list Doc) : list Doc :=
  match docs with
  | [] => filtered
  | d :: rest =>
      if title_matches track_name d then
        if artist_gate artist_name d
        then filter_loop track_name artist_name rest (filtered ++ [d])
        else filter_loop track_name artist_name rest filtered
      else filter_loop track_name artist_name rest filtered
  end.

Definition best_map (track_name : string) (artist_name : option string)
  : Prog (option Doc) :=
  docs <- beat_search track_name ;;
  let filtered := filter_loop track_name artist_name docs [] in
  if negb (nonempty filtered) then ret None
  else ret (pick_top filtered).

End Selector.

(** ** Download and extraction *)

Inductive Node :=
| Dir
| File (data : string).

Fixpoint path_eqb (p q : Path) : bool :=
  match p, q with
  | [], [] => true
  | a :: p', b :: q' => String.eqb a b && path_eqb p' q'
  | _, _ => false
  end.

(** [p] is a non-empty leading part of [q]. *)
Fixpoint leads (p q : Path) : bool :=
  match p, q with
  | [a], b :: _ => String.eqb a b
  | a :: p', b :: q' => String.eqb a b && leads p' q'
  | _, _ => false
  end.

(** The disk after one more operation.  [MkDir] is
    [mkdir(parents=True, exist_ok=True)].  The operations are taken to
    succeed: a disk that refuses one (a file in the place of a
    directory, no room, no permission) is outside the model. *)
Definition fs_step (fs : Path -> option Node) (op : FsOp) : Path -> option Node :=
  fun x =>
    match op with
    | MkDir p =>
        if leads x p
        then match fs x with None => Some Dir | Some n => Some n end
        else fs x
    | Store p data => if path_eqb x p then Some (File data) else fs x
    | Remove p => if path_eqb x p then None else fs x
    end.

(** What is at a path after the operations [ops], from an empty disk. *)
Definition fs_read (ops : list FsOp) : Path -> option Node :=
  fold_left fs_step ops (fun _ => None).

Definition fs_do (ops : list FsOp) : Prog unit :=
  fun w =>
    (Return tt,
     {| server := server w; sent := sent w; disk := disk w ++ ops |}).

(** What [zipfile] finds in a file: the members in the order they are
    extracted, and the member, if any, at which reading fails
    ([Some 0] for a file that is no archive at all). *)
Record Archive := {
  members : list (Path * string);
  corrupt_at : option nat
}.

(** [re.sub] with the pattern [[^A-Za-z0-9- ]] and an empty replacement
    keeps these characters. *)
Definition allowed (c : ascii) : bool :=
  PyStr.is_upper c || PyStr.is_lower c || PyStr.is_digit c
  || Ascii.eqb c "-" || Ascii.eqb c " ".

(** [re.sub(...).strip().replace(" ", "_")] *)
Definition clean (s : string) : string :=
  PyStr.replace " " "_" (PyStr.strip (PyStr.keep allowed s)).

(** [f"{artist_clean}-{track_clean}"] *)
Definition dir_name (artist track : string) : string :=
  clean artist +:+ "-" +:+ clean track.

(** [Path(OUT_DIR) / f"{artist_clean}-{track_clean}"] *)
Definition dest_dir (artist track : string) : Path :=
  [OUT_DIR; dir_name artist track].

Section Acquirer.

Variable zipfile : string -> Archive.

Definition store_under (dest : Path) (m : Path * string) : FsOp :=
  Store (dest ++ fst m) (snd m).

(** [with zipfile.ZipFile(zip_path, 'r') as z: z.extractall(dest_dir)] *)
Definition extractall (zip_path dest : Path) : Prog unit :=
  fun w =>
    match fs_read (disk w) zip_path with
    | Some (File data) =>
        let a := zipfile data in
        match corrupt_at a with
        | Some k =>
            bind (fs_do (map (store_under dest) (firstn k (members a))))
                 (fun _ => raise BadZipFile) w
        | None => fs_do (map (store_under dest) (members a)) w
        end
    | _ => (Raise OSError, w)
    end.

(** The id is taken to be one path component, as the keys of the
    catalogue are: the archive file lies in the destination. *)
Definition download_and_extract (bs_id : string) (artist : option string)
    (track : string) : Prog bool :=
  r <- requests_get (DownloadKey bs_id) ;;
  if negb (status_code r =? 200)%Z then ret false else
  _ <- lift (raise_for_status r) ;;
  match artist with
  | None => raise TypeError
  | Some a =>
      let dest := dest_dir a track in
      _ <- fs_do [MkDir dest] ;;
      let zip_path := dest ++ [bs_id +:+ ".zip"] in
      _ <- fs_do [Store zip_path (content r)] ;;
      _ <- extractall zip_path dest ;;
      _ <- fs_do [Remove zip_path] ;;
      ret true
  end.

End Acquirer.

(** ** The driver *)

(** One element of the track list; [item.get('artist')] may be [None]. *)
Record TrackRef := {
  artist : option string;
  track : string
}.

(** [f"{artist_name} - {track_name}"] *)
Definition label (t : TrackRef) : string :=
  PyStr.str (artist t) +:+ " - " +:+ track t.

Section Driver.

Variable lower : string -> string.
Variable partial_ratio : string -> string -> Q.
Variable zipfile : string -> Archive.

(** The statements inside [try]; the result says whether the label
    goes to [downloaded]. *)
Definition attempt (t : TrackRef) : Prog bool :=
  hit <- best_map lower partial_ratio (track t) (artist t) ;;
  match hit with
  | Some d =>
      ok <- download_and_extract zipfile (id d) (artist t) (track t) ;;
      ret ok
  | None => ret false
  end.

(** The two lists of [main]: [downloaded] and [not_found]. *)
Definition Report : Type := list string * list string.

(** One turn of the [for] loop, with its [try ... except Exception]:
    every exception of [Exn] is an [Exception]. *)
Definition turn (t : TrackRef) (acc : Report) (w : World) : Report * World :=
  match attempt t w with
  | (Return true, w') => ((fst acc ++ [label t], snd acc), w')
  | (Return false, w') => ((fst acc, snd acc ++ [label t]), w')
  | (Raise _, w') => ((fst acc, snd acc ++ [label t]), w')
  end.

Fixpoint main_loop (tracks : list TrackRef) (acc : Report) (w : World)
  : Report * World :=
  match tracks with
  | [] => (acc, w)
  | t :: rest =>
      let '(acc', w') := turn t acc w in
      main_loop rest acc' w'
  end.

(** [main], from the track list on: it starts with both lists empty. *)
Definition main (tracks : list TrackRef) (w : World) : Report * World :=
  main_loop tracks ([], []) w.

End Driver.

(** ** The reports *)

(** The separator of ["\n".join(...)]. *)
Definition newline : string := String (ascii_of_nat 10) EmptyString.

(** The end of [main]: a list that is not empty is written to its
    file, the labels joined by newlines. *)
Definition write_reports (r : Report) : Prog unit :=
  _ <- (if nonempty (fst r)
        then fs_do [Store ["downloaded.txt"%string]
                      (String.concat newline (fst r))]
        else ret tt) ;;
  if nonempty (snd r)
  then fs_do [Store ["not_found.txt"%string] (String.concat newline (snd r))]
  else ret tt.

(** ** Loading the tracks *)

Definition TRACK_FILE : string := "tracklist.json".

Module Spotify.

(** The part of a saved track that [load_tracks] reads: the names of
    its artists, in order, and its name. *)
Record Track := {
  artists : list string;
  name : string
}.

(** One answer of [current_user_saved_tracks]. *)
Record Page := {
  items : list Track;
  next : option string
}.

End Spotify.

(** The music library as [load_tracks] meets it: the code that
    [parse_response_code] finds in what the user pastes, whether the
    token request for a code succeeds, and the page of saved tracks at
    an offset ([None] when the call raises). *)
Record Account := {
  redirect_code : option string;
  access_token : string -> bool;
  saved_tracks : nat -> option Spotify.Page
}.

Inductive LoadError :=
| SystemExit
| IndexError
| SpotifyError
| CacheError (e : Exn).

(** What [load_tracks] comes to: the tracks, an exception, or a loop
    that is still asking for pages when the fuel is spent. *)
Inductive LoadResult :=
| Tracks (tracks : list TrackRef)
| Fails (e : LoadError)
| Running.

(** The [for item in page['items']] loop: the first artist and the
    name of every item are appended; [t['artists'][0]] raises for a
    track without artists. *)
Fixpoint append_items (items : list Spotify.Track) (tracks : list TrackRef)
  : LoadError + list TrackRef :=
  match items with
  | [] => inr tracks
  | t :: rest =>
      match Spotify.artists t with
      | [] => inl IndexError
      | a :: _ =>
          append_items rest
            (tracks ++ [{| artist := Some a; track := Spotify.name t |}])
      end
  end.

(** The [while True] loop, with a bound on the number of pages asked. *)
Fixpoint fetch_saved (acct : Account) (fuel offset : nat)
    (tracks : list TrackRef) : LoadResult :=
  match fuel with
  | O => Running
  | S fuel' =>
      match saved_tracks acct offset with
      | None => Fails SpotifyError
      | Some page =>
          match append_items (Spotify.items page) tracks with
          | inl e => Fails e
          | inr tracks' =>
              match Spotify.next page with
              | None => Tracks tracks'
              | Some _ => fetch_saved acct fuel' (offset + 50) tracks'
              end
          end
      end
  end.

Section Loader.

(** [json.load] of the text of a cache file and [json.dump] of a track
    list. *)
Variable json_load : string -> Outcome (list TrackRef).
Variable json_dump : list TrackRef -> string.

(** The disk of the model holds what the program itself writes: the
    token file that the OAuth library keeps for itself is not on it. *)
Definition load_tracks (acct : Account) (fuel : nat) (w : World)
  : LoadResult * World :=
  match fs_read (disk w) [TRACK_FILE] with
  | Some (File data) =>
      match json_load data with
      | Return tracks => (Tracks tracks, w)
      | Raise e => (Fails (CacheError e), w)
      end
  | Some Dir => (Fails (CacheError OSError), w)
  | None =>
      match redirect_code acct with
      | Some code =>
          if PyStr.is_empty code then (Fails SystemExit, w)
          else if access_token acct code then
            match fetch_saved acct fuel 0 [] with
            | Tracks tracks =>
                (Tracks tracks,
                 {| server := server w; sent := sent w;
                    disk := disk w ++ [Store [TRACK_FILE] (json_dump tracks)] |})
            | other => (other, w)
            end
          else (Fails SpotifyError, w)
      | None => (Fails SystemExit, w)
      end
  end.

End Loader.

Section Program.

Variable lower : string -> string.
Variable partial_ratio : string -> string -> Q.
Variable zipfile : string -> Archive.

(** [main] from the track list to the reports. *)
Definition main_and_reports (tracks : list TrackRef) (w : World)
  : Report * World :=
  let '(r, w') := main lower partial_ratio zipfile tracks w in
  (r, snd (write_reports r w')).

End Program.

(** * Vocabulary of the statements *)

(** The three requests of one run of the search, in the order of the code. *)
Definition tiers (q : string) : list Request :=
  [SearchQuoted q; SearchText q; SearchAdvanced q].

(** The world after the further requests [reqs]. *)
Definition sent_more (w : World) (reqs : list Request) : World :=
  {| server := server w; sent := sent w ++ reqs; disk := disk w |}.

(** The catalogue's reply to tier [i] (0, 1, 2) of a run that starts in
    [w] and gets that far. *)
Definition tier_reply (q : string) (w : World) (i : nat) : Reply :=
  server w (map url (sent w ++ firstn (S i) (tiers q))).

Definition tier_result (q : string) (w : World) (i : nat) : Outcome (list Doc) :=
  match tier_reply q w i with
  | Answer r => tier_docs r
  | NoAnswer => Raise RequestException
  end.

Definition no_docs (o : Outcome (list Doc)) : bool :=
  match o with Return [] => true | _ => false end.

(** The first tier of a run from [w] whose outcome is not an empty
    list; the last tier when there is none. *)
Definition decisive_tier (q : string) (w : World) : nat :=
  if no_docs (tier_result q w 0) then
    if no_docs (tier_result q w 1) then 2 else 1
  else 0.

(** A catalogue that answers the [n]-th request with the [n]-th reply
    of a script, and does not answer once the script is over. *)
Definition scripted (script : list Reply) : Server :=
  fun urls => nth (List.length urls - 1) script NoAnswer.

Definition fresh (script : list Reply) : World :=
  {| server := scripted script; sent := []; disk := [] |}.

Definition answer (status : Z) (docs : list Doc) : Reply :=
  Answer {| status_code := status; json_body := Json (Some docs);
            content := EmptyString |}.

Definition plain_doc (key title author : string) (rate : Q) : Doc :=
  {| id := key; name := Some title;
     metadata := Some {| songName := None; songAuthorName := Some author |};
     stats := Some {| score := Some rate |} |}.

(** A catalogue that has one doc for the quoted request. *)
Definition found_at_once : World :=
  fresh [answer 200 [plain_doc "1a" "q" "x" 0.9]].

(** A catalogue that refuses the first quoted request (403) and
    answers the second with one doc. *)
Definition refused_once : World :=
  fresh [answer 403 []; answer 200 [plain_doc "1a" "q" "x" 0.9]].

(** A catalogue that answers the quoted request with status 304 and a
    body that holds one doc. *)
Definition not_modified : World :=
  fresh [answer 304 [plain_doc "1a" "q" "x" 0.9]].

(** A catalogue with nothing for the quoted request (404) and a server
    error (500) on the first plain-text request, and nothing (404)
    from then on. *)
Definition outage_on_text : World :=
  fresh [answer 404 []; answer 500 []; answer 404 []; answer 404 [];
         answer 404 []].

(** Three candidates, the last two with the same score. *)
Definition three_candidates : list Doc :=
  [plain_doc "1a" "t" "x" 0.7; plain_doc "2b" "t" "x" 0.9;
   plain_doc "3c" "t" "x" 0.9].

(** The order of a list sorted by descending key. *)
Definition key_ge {A} (key : A -> Q) (a b : A) : Prop := (key b <= key a)%Q.

(** The test of the filter loop of [best_map] on one doc. *)
Definition keeps (lower : string -> string)
    (partial_ratio : string -> string -> Q)
    (track_name : string) (artist_name : option string) (d : Doc) : bool :=
  title_matches lower track_name d
  && artist_gate lower partial_ratio artist_name d.

(** A similarity function that gives the same score to every pair. *)
Definition fixed_ratio (v : Q) : string -> string -> Q := fun _ _ => v.

(** The characters a cleaned name is made of. *)
Definition name_char (c : ascii) : bool :=
  PyStr.is_upper c || PyStr.is_lower c || PyStr.is_digit c
  || Ascii.eqb c "-" || Ascii.eqb c "_".

Definition is_blank (c : ascii) : bool := Ascii.eqb c " ".

(** The sanitizer in the words of the specification: strip the
    characters outside [[A-Za-z0-9- ]], trim the blanks at both ends,
    put an underscore for every blank. *)
Definition sanitize (s : string) : string :=
  PyStr.map_chars (fun c => if is_blank c then "_"%char else c)
    (PyStr.drop_trailing is_blank
       (PyStr.drop_leading is_blank (PyStr.keep allowed s))).

(** The world after the further requests [reqs] and disk operations [ops]. *)
Definition world_after (w : World) (reqs : list Request) (ops : list FsOp)
  : World :=
  {| server := server w; sent := sent w ++ reqs; disk := disk w ++ ops |}.

(** [dest_dir / f"{bs_id}.zip"] *)
Definition zip_path (bs_id artist track : string) : Path :=
  dest_dir artist track ++ [bs_id +:+ ".zip"].

(** The disk operations up to the extraction: the directory, then the
    archive file. *)
Definition save_archive (bs_id artist track data : string) : list FsOp :=
  [MkDir (dest_dir artist track); Store (zip_path bs_id artist track) data].

Definition is_remove (op : FsOp) : bool :=
  match op with Remove _ => true | _ => false end.

(** An archive reader for the examples: every file holds two members,
    and reading fails at the second one when the file starts with [!]. *)
Definition toy_zipfile (data : string) : Archive :=
  {| members := [(["Info.dat"], "info"); (["song.egg"], "egg")]%string;
     corrupt_at := match data with
                   | String "!" _ => Some 1
                   | _ => None
                   end |}.

Definition download (status : Z) (data : string) : Reply :=
  Answer {| status_code := status; json_body := NotJson; content := data |}.

Section DriverVocabulary.

Variable lower : string -> string.
Variable partial_ratio : string -> string -> Q.
Variable zipfile : string -> Archive.

(** Whether the chain of a track, run in [w], ends with a download. *)
Definition succeeds (t : TrackRef) (w : World) : bool :=
  match fst (attempt lower partial_ratio zipfile t w) with
  | Return true => true
  | _ => false
  end.

(** The tracks with their outcomes, each chain run in the world the
    one before it left. *)
Fixpoint outcomes (tracks : list TrackRef) (w : World)
  : list (TrackRef * bool) :=
  match tracks with
  | [] => []
  | t :: rest =>
      (t, succeeds t w)
        :: outcomes rest (snd (attempt lower partial_ratio zipfile t w))
  end.

End DriverVocabulary.

(** The labels of the tracks whose outcome is [flag]. *)
Definition labels_of (flag : bool) (l : list (TrackRef * bool)) : list string :=
  map (fun x => label (fst x)) (filter (fun x => Bool.eqb (snd x) flag) l).

Definition daft_punk : TrackRef :=
  {| artist := Some "Daft Punk"%string; track := "One More Time" |}.

Definition acdc : TrackRef :=
  {| artist := Some "AC/DC"%string; track := "T.N.T." |}.

(** A catalogue with one map of "One More Time" whose archive is
    corrupt, and one of "T.N.T." whose archive is sound. *)
Definition one_corrupt_archive : World :=
  fresh [answer 200 [plain_doc "abcd" "One More Time" "Daft Punk" 0.8];
         download 200 "!PK";
         answer 200 [plain_doc "ef01" "T.N.T." "AC/DC" 0.9];
         download 200 "PK"].

(** The characters of a percent-encoded text. *)
Definition encoded_char (c : ascii) : bool :=
  PyStr.unreserved c || Ascii.eqb c "%".

(** The address of the two text searches, up to the query. *)
Definition text_search_base : string :=
  "https://api.beatsaver.com/search/text/0?sortOrder=Relevance&q=".

(** A catalogue whose answer to the plain-text request is no JSON. *)
Definition garbled_text : World :=
  fresh [answer 404 [];
         Answer {| status_code := 200; json_body := NotJson;
                   content := EmptyString |}].

(** A catalogue that is out of order: every answer is a 503. *)
Definition always_503 : World :=
  {| server := fun _ => answer 503 []; sent := []; disk := [] |}.

(** A doc without the [stats] field. *)
Definition unrated_doc (key title author : string) : Doc :=
  {| id := key; name := Some title;
     metadata := Some {| songName := None; songAuthorName := Some author |};
     stats := None |}.

(** The path a disk operation works on. *)
Definition op_path (op : FsOp) : Path :=
  match op with
  | MkDir p => p
  | Store p _ => p
  | Remove p => p
  end.

(** [p] is [dir] or lies under it. *)
Fixpoint under (dir p : Path) : bool :=
  match dir, p with
  | [], _ => true
  | a :: dir', b :: p' => String.eqb a b && under dir' p'
  | _ :: _, [] => false
  end.

(** The reply of the catalogue to the download of a map, asked in [w]. *)
Definition download_reply (w : World) (bs_id : string) : Reply :=
  server w (map url (sent w ++ [DownloadKey bs_id])).

(** A disk operation that takes no directory of the output root away:
    it removes nothing, or what it removes lies three levels deep (as
    [maps/<name>/<id>.zip] does). *)
Definition spares_directories (op : FsOp) : bool :=
  negb (is_remove op) || (List.length (op_path op) =? 3).

Definition track_without_artist (title : string) : TrackRef :=
  {| artist := None; track := title |}.

(** A disk operation inside the output root [maps]. *)
Definition in_output_root (op : FsOp) : bool := under [OUT_DIR] (op_path op).

(** A world with a disk on which an earlier run left its reports. *)
Definition after_earlier_run (script : list Reply) : World :=
  {| server := scripted script; sent := [];
     disk := [Store ["downloaded.txt"%string] "Old - Song";
              Store ["not_found.txt"%string] "Lost - Song"] |}.

(** The track reference made of a saved track: its first artist and
    its name. *)
Definition first_artist_ref (t : Spotify.Track) : TrackRef :=
  {| artist := Some (hd EmptyString (Spotify.artists t));
     track := Spotify.name t |}.

Definition has_artist (t : Spotify.Track) : bool :=
  nonempty (Spotify.artists t).

(** [pages] are the pages the library serves at [offset], [offset + 50],
    and so on, each but the last with a link to a next page. *)
Fixpoint chained (acct : Account) (offset : nat) (pages : list Spotify.Page)
  : Prop :=
  match pages with
  | [] => True
  | p :: rest =>
      saved_tracks acct offset = Some p /\
      (rest <> [] -> Spotify.next p <> None) /\
      chained acct (offset + 50) rest
  end.

Definition first_page : Spotify.Page :=
  {| Spotify.items :=
       [{| Spotify.artists := ["Daft Punk"; "Pharrell Williams"]%string;
           Spotify.name := "Get Lucky" |}];
     Spotify.next := Some "offset=50"%string |}.

Definition last_page : Spotify.Page :=
  {| Spotify.items :=
       [{| Spotify.artists := ["AC/DC"%string];
           Spotify.name := "T.N.T." |}];
     Spotify.next := None |}.

Definition orphan_page : Spotify.Page :=
  {| Spotify.items :=
       [{| Spotify.artists := []; Spotify.name := "Untitled" |}];
     Spotify.next := None |}.

(** A library of two pages, and one whose second page holds a track
    without artists. *)
Definition library (second : Spotify.Page) : Account :=
  {| redirect_code := Some "AQB"%string;
     access_token := fun _ => true;
     saved_tracks := fun offset =>
       if offset =? 0 then Some first_page
       else if offset =? 50 then Some second
       else None |}.

(** A stand-in for the JSON codec of the cache: the text is the labels
    of the tracks, and reading gives back the two tracks of the
    example library whatever the text. *)
Definition toy_dump (tracks : list TrackRef) : string :=
  String.concat newline (map label tracks).

Definition toy_load (data : string) : Outcome (list TrackRef) :=
  Return [first_artist_ref {| Spotify.artists := ["Daft Punk"%string];
                              Spotify.name := "Get Lucky" |};
          first_artist_ref {| Spotify.artists := ["AC/DC"%string];
                              Spotify.name := "T.N.T." |}].

Definition empty_world : World :=
  {| server := scripted []; sent := []; disk := [] |}.

(** Letters, digits and the hyphen. *)
Definition plain_char (c : ascii) : bool :=
  PyStr.is_upper c || PyStr.is_lower c || PyStr.is_digit c
  || Ascii.eqb c "-".

(** An operation that leaves what lies at [x] in place: it creates
    directories, or it stores or removes at another path. *)
Definition avoids (x : Path) (op : FsOp) : bool :=
  match op with
  | MkDir _ => true
  | Store p _ => negb (path_eqb x p)
  | Remove p => negb (path_eqb x p)
  end.

(** A text without [/]: one component of a path. *)
Definition single_component (s : string) : bool :=
  PyStr.all_chars (fun c => negb (Ascii.eqb c "/")) s.

(** * Properties *)

(** ** The search *)

Lemma requests_get_first req w :
  requests_get req w =
  match server w (map url (sent w ++ [req])) with
  | Answer r => (Return r, sent_more w [req])
  | NoAnswer => (Raise RequestException, sent_more w [req])
  end.
Proof. reflexivity. Qed.

Lemma requests_get_next req w l :
  requests_get req (sent_more w l) =
  match server w (map url (sent w ++ l ++ [req])) with
  | Answer r => (Return r, sent_more w (l ++ [req]))
  | NoAnswer => (Raise RequestException, sent_more w (l ++ [req]))
  end.
Proof.
  unfold requests_get, sent_more; simpl.
  rewrite <- app_assoc. reflexivity.
Qed.

Lemma no_docs_true o : no_docs o = true -> o = Return [].
Proof. destruct o as [[|x l]|e]; simpl; congruence. Qed.

(** One run of the search: the tiers are asked in order up to the
    decisive one, whose outcome is the outcome of the run. *)
Lemma beat_search_body_spec q w :
  beat_search_body q w =
  (tier_result q w (decisive_tier q w),
   sent_more w (firstn (S (decisive_tier q w)) (tiers q))).
Proof.
  unfold beat_search_body, decisive_tier, tier_result, tier_reply, bind, lift, ret.
  rewrite requests_get_first. cbn [firstn tiers].
  destruct (server w (map url (sent w ++ [SearchQuoted q]))) as [r1|] eqn:E1;
    [|cbn; now rewrite E1].
  destruct (tier_docs r1) as [[|d1 l1]|e1] eqn:D1;
    [|cbn; now rewrite E1, D1..].
  cbn [no_docs nonempty].
  rewrite requests_get_next. cbn [app].
  destruct (server w (map url (sent w ++ [SearchQuoted q; SearchText q])))
    as [r2|] eqn:E2; [|cbn; now rewrite E2].
  destruct (tier_docs r2) as [[|d2 l2]|e2] eqn:D2;
    [|cbn; now rewrite E2, D2..].
  cbn [no_docs nonempty].
  rewrite requests_get_next. cbn [app firstn].
  destruct (server w (map url
     (sent w ++ [SearchQuoted q; SearchText q; SearchAdvanced q])))
    as [r3|]; [|reflexivity].
  destruct (tier_docs r3) as [docs|e3]; reflexivity.
Qed.

Lemma decisive_tier_lt q w : decisive_tier q w < 3.
Proof.
  unfold decisive_tier.
  destruct (no_docs (tier_result q w 0)), (no_docs (tier_result q w 1)); lia.
Qed.

(** A tier that is reached (the tiers before it gave no docs) and does
    not give an empty list is the decisive one. *)
Lemma decisive_tier_reached q w n :
  n < 3 ->
  (forall i, i < n -> tier_result q w i = Return []) ->
  no_docs (tier_result q w n) = false ->
  decisive_tier q w = n.
Proof.
  intros Hn Hbefore Hn'. unfold decisive_tier.
  destruct n as [|[|[|n]]]; try lia.
  - now rewrite Hn'.
  - rewrite (Hbefore 0) by lia. simpl. now rewrite Hn'.
  - rewrite (Hbefore 0), (Hbefore 1) by lia. reflexivity.
Qed.

Lemma retrying_return {A} n (f : Prog A) w a w' :
  f w = (Return a, w') -> retrying (S n) f w = (Return a, w').
Proof. intros H. simpl. now rewrite H. Qed.

Lemma retrying_http_error {A} n (f : Prog A) w w' :
  f w = (Raise HTTPError, w') -> retrying (S n) f w = retrying n f w'.
Proof. intros H. simpl. now rewrite H. Qed.

Lemma retrying_other {A} n (f : Prog A) w e w' :
  f w = (Raise e, w') -> e <> HTTPError ->
  retrying (S n) f w = (Raise e, w').
Proof. intros H He. simpl. rewrite H. destruct e; congruence. Qed.

(** A run raises nothing but the errors of its requests. *)
Lemma tier_docs_raises r e :
  tier_docs r = Raise e -> e = HTTPError \/ e = JSONDecodeError.
Proof.
  unfold tier_docs, raise_for_status.
  destruct (status_code r =? 404)%Z; [discriminate|].
  destruct (status_code r >=? 500)%Z; [intros [= <-]; auto|].
  destruct ((400 <=? status_code r)%Z && (status_code r <? 600)%Z);
    [intros [= <-]; auto|].
  destruct (json_body r) as [|[docs|]]; try discriminate.
  intros [= <-]; auto.
Qed.

Lemma beat_search_body_raises q w e w' :
  beat_search_body q w = (Raise e, w') ->
  e = HTTPError \/ e = RequestException \/ e = JSONDecodeError.
Proof.
  rewrite beat_search_body_spec. intros [= Hres _].
  unfold tier_result in Hres.
  destruct (tier_reply q w (decisive_tier q w)) as [r|].
  - apply tier_docs_raises in Hres. tauto.
  - injection Hres as <-. auto.
Qed.

(** [RetryError] comes from the decorator alone: a search of [S n] runs
    raises it exactly when its first run raises an [HTTPError] and the
    [n] runs that follow end in [RetryError]. *)
Lemma retrying_retry_error q n w w' :
  retrying (S n) (beat_search_body q) w = (Raise RetryError, w') <->
  exists w1,
    beat_search_body q w = (Raise HTTPError, w1) /\
    retrying n (beat_search_body q) w1 = (Raise RetryError, w').
Proof.
  simpl retrying at 1.
  destruct (beat_search_body q w) as [[docs|e] w1] eqn:Hrun.
  - split; [discriminate|]. intros (w1' & H & _). discriminate H.
  - destruct e;
      try (split;
           [ intros [= _]; apply beat_search_body_raises in Hrun;
             intuition congruence
           | intros (w1' & H & _); discriminate H ]).
    split.
    + intros H. exists w1. auto.
    + intros (w1' & [= <-] & H). exact H.
Qed.

(** The decorator lets no [HTTPError] through. *)
Lemma retrying_never_http_error q n w :
  fst (retrying n (beat_search_body q) w) <> Raise HTTPError.
Proof.
  revert w. induction n as [|n IH]; intros w; [discriminate|].
  simpl retrying.
  destruct (beat_search_body q w) as [[docs|e] w1]; [discriminate|].
  destruct e; try discriminate. apply IH.
Qed.

(** The requests of a whole search are those of at most [n] runs, one
    after the other, and each run asks the tiers in order from the
    quoted one. *)
Lemma retrying_runs q n w :
  exists runs : list nat,
    List.length runs <= n /\
    Forall (fun k => k < 3) runs /\
    sent (snd (retrying n (beat_search_body q) w)) =
    sent w ++ List.concat (map (fun k => firstn (S k) (tiers q)) runs).
Proof.
  revert w. induction n as [|n IH]; intros w.
  - exists []. simpl. rewrite app_nil_r. auto.
  - simpl retrying. rewrite beat_search_body_spec.
    set (k := decisive_tier q w).
    assert (Hk : k < 3) by apply decisive_tier_lt.
    assert (Hone : exists runs : list nat,
               List.length runs <= S n /\ Forall (fun k => k < 3) runs /\
               sent (sent_more w (firstn (S k) (tiers q))) =
               sent w ++ List.concat (map (fun k => firstn (S k) (tiers q)) runs)).
    { exists [k]. repeat split; [simpl; lia | auto |].
      cbn [map List.concat]. now rewrite app_nil_r. }
    destruct (tier_result q w k) as [docs|e]; [exact Hone|].
    destruct e; try exact Hone.
    destruct (IH (sent_more w (firstn (S k) (tiers q)))) as (runs & Hlen & Hall & Hsent).
    exists (k :: runs). repeat split; [simpl; lia | auto |].
    rewrite Hsent. cbn [map List.concat sent sent_more].
    now rewrite app_assoc.
Qed.

Lemma retrying_asks_quoted_first q n w :
  exists rest,
    sent (snd (retrying (S n) (beat_search_body q) w)) =
    sent w ++ SearchQuoted q :: rest.
Proof.
  destruct (retrying_runs q n
              (sent_more w (firstn (S (decisive_tier q w)) (tiers q))))
    as (runs & _ & _ & Hsent).
  simpl retrying. rewrite beat_search_body_spec.
  set (k := decisive_tier q w) in *.
  assert (Hone : exists rest,
             sent (sent_more w (firstn (S k) (tiers q))) =
             sent w ++ SearchQuoted q :: rest).
  { eexists. reflexivity. }
  destruct (tier_result q w k) as [docs|e]; [exact Hone|].
  destruct e; try exact Hone.
  rewrite Hsent. cbn [sent sent_more firstn tiers].
  rewrite <- app_assoc. cbn [app]. eexists. reflexivity.
Qed.

(** The retry examples of the specification: two 500s and then a 200
    give the docs after 3 requests; three 500s fail the query. *)
Example retry_examples :
  beat_search "q"
    (fresh [answer 500 []; answer 500 [];
            answer 200 [plain_doc "1a" "q" "x" 0.9]])
  = (Return [plain_doc "1a" "q" "x" 0.9],
     sent_more
       (fresh [answer 500 []; answer 500 [];
               answer 200 [plain_doc "1a" "q" "x" 0.9]])
       [SearchQuoted "q"; SearchQuoted "q"; SearchQuoted "q"]) /\
  beat_search "q" (fresh [answer 500 []; answer 500 []; answer 500 []])
  = (Raise RetryError,
     sent_more (fresh [answer 500 []; answer 500 []; answer 500 []])
       [SearchQuoted "q"; SearchQuoted "q"; SearchQuoted "q"]).
Proof. split; reflexivity. Qed.

Lemma tier_docs_client_error r :
  (400 <= status_code r < 500)%Z -> status_code r <> 404%Z ->
  tier_docs r = Raise HTTPError.
Proof.
  intros Hr H404. unfold tier_docs, raise_for_status.
  destruct (status_code r =? 404)%Z eqn:E404; [lia|].
  destruct (status_code r >=? 500)%Z eqn:E500; [lia|].
  destruct (400 <=? status_code r)%Z eqn:E400; [|lia].
  destruct (status_code r <? 600)%Z eqn:E600; [|lia].
  reflexivity.
Qed.

Lemma tier_docs_server_error r :
  (500 <= status_code r)%Z -> tier_docs r = Raise HTTPError.
Proof.
  intros Hr. unfold tier_docs.
  destruct (status_code r =? 404)%Z eqn:E404; [lia|].
  destruct (status_code r >=? 500)%Z eqn:E500; [reflexivity|lia].
Qed.

Lemma tier_docs_below_400 r :
  (status_code r < 400)%Z ->
  tier_docs r =
  match json_body r with
  | NotJson => Raise JSONDecodeError
  | Json None => Return []
  | Json (Some docs) => Return docs
  end.
Proof.
  intros Hr. unfold tier_docs, raise_for_status.
  destruct (status_code r =? 404)%Z eqn:E404; [lia|].
  destruct (status_code r >=? 500)%Z eqn:E500; [lia|].
  destruct (400 <=? status_code r)%Z eqn:E400; [lia|].
  reflexivity.
Qed.

(** A tier that is reached and raises an [HTTPError] ends the run
    there, and the decorator starts the search again. *)
Lemma http_error_at_reached_tier q w n :
  n < 3 ->
  (forall i, i < n -> tier_result q w i = Return []) ->
  tier_result q w n = Raise HTTPError ->
  beat_search_body q w =
    (Raise HTTPError, sent_more w (firstn (S n) (tiers q))) /\
  beat_search q w =
    retrying 2 (beat_search_body q) (sent_more w (firstn (S n) (tiers q))).
Proof.
  intros Hn Hbefore Hres.
  assert (Hk : decisive_tier q w = n).
  { apply decisive_tier_reached; auto. now rewrite Hres. }
  assert (Hbody : beat_search_body q w =
            (Raise HTTPError, sent_more w (firstn (S n) (tiers q)))).
  { rewrite beat_search_body_spec, Hk, Hres. reflexivity. }
  split; [exact Hbody|].
  unfold beat_search. now apply retrying_http_error.
Qed.

(** C1, as stated, fails.  The first answer has status 403 (not 2xx,
    not 404, below 500), yet the query does not fail: the quoted
    request is sent a second time and its docs are returned.  And an
    answer with status 304 (not 2xx, not 404, below 500) is no failure
    either: its docs are returned. *)
Lemma client_error_is_retried :
  tier_reply "q" refused_once 0 = answer 403 [] /\
  beat_search "q" refused_once =
    (Return [plain_doc "1a" "q" "x" 0.9],
     sent_more refused_once [SearchQuoted "q"; SearchQuoted "q"]) /\
  tier_reply "q" not_modified 0 = answer 304 [plain_doc "1a" "q" "x" 0.9] /\
  beat_search "q" not_modified =
    (Return [plain_doc "1a" "q" "x" 0.9],
     sent_more not_modified [SearchQuoted "q"]).
Proof. repeat split. Qed.

(** C1, amended.  A tier that is reached and answers with a status in
    400..499 other than 404 raises an [HTTPError] at once: the run ends
    there and asks no further tier.  The error is not final: it goes
    through the retry decorator like a 5xx.  The whole search is run
    again, so the next request is the quoted one; a search makes at
    most 3 runs; the query never fails with the [HTTPError] itself, and
    it fails with [RetryError] exactly when the two runs that follow
    raise an [HTTPError] as well.  A status below 400 raises nothing,
    2xx or not: the body is read. *)
Theorem client_error_ends_run_and_is_retried q w n r :
  n < 3 ->
  (forall i, i < n -> tier_result q w i = Return []) ->
  tier_reply q w n = Answer r ->
  (400 <= status_code r < 500)%Z ->
  status_code r <> 404%Z ->
  beat_search_body q w =
    (Raise HTTPError, sent_more w (firstn (S n) (tiers q))) /\
  beat_search q w =
    retrying 2 (beat_search_body q) (sent_more w (firstn (S n) (tiers q))) /\
  (exists rest,
      sent (snd (beat_search q w)) =
      sent w ++ firstn (S n) (tiers q) ++ SearchQuoted q :: rest) /\
  (exists runs : list nat,
      List.length runs <= 3 /\
      Forall (fun k => k < 3) runs /\
      sent (snd (beat_search q w)) =
      sent w ++ List.concat (map (fun k => firstn (S k) (tiers q)) runs)) /\
  fst (beat_search q w) <> Raise HTTPError /\
  (forall w2,
      beat_search q w = (Raise RetryError, w2) <->
      exists w1,
        beat_search_body q (sent_more w (firstn (S n) (tiers q)))
          = (Raise HTTPError, w1) /\
        beat_search_body q w1 = (Raise HTTPError, w2)) /\
  (forall r', (status_code r' < 400)%Z ->
      tier_docs r' =
      match json_body r' with
      | NotJson => Raise JSONDecodeError
      | Json None => Return []
      | Json (Some docs) => Return docs
      end).
Proof.
  intros Hn Hbefore Hreply Hstatus H404.
  assert (Hres : tier_result q w n = Raise HTTPError).
  { unfold tier_result. rewrite Hreply. now apply tier_docs_client_error. }
  destruct (http_error_at_reached_tier q w n Hn Hbefore Hres) as [Hbody Hsearch].
  split; [exact Hbody|]. split; [exact Hsearch|].
  split; [|split; [|split; [|split]]].
  - rewrite Hsearch.
    destruct (retrying_asks_quoted_first q 1
                (sent_more w (firstn (S n) (tiers q)))) as [rest Hrest].
    exists rest. rewrite Hrest. cbn [sent sent_more].
    now rewrite <- app_assoc.
  - apply retrying_runs.
  - apply retrying_never_http_error.
  - intros w2. rewrite Hsearch, retrying_retry_error.
    split.
    + intros (w1 & H1 & H2). apply retrying_retry_error in H2.
      destruct H2 as (w2' & H2 & [= <-]). exists w1. auto.
    + intros (w1 & H1 & H2). exists w1. split; [exact H1|].
      apply retrying_retry_error. exists w2. auto.
  - apply tier_docs_below_400.
Qed.

Lemma client_error_ends_run_and_is_retried_witness :
  beat_search_body "q" refused_once =
    (Raise HTTPError, sent_more refused_once [SearchQuoted "q"]) /\
  beat_search "q" refused_once =
    retrying 2 (beat_search_body "q")
      (sent_more refused_once [SearchQuoted "q"]) /\
  fst (beat_search "q" refused_once) <> Raise HTTPError.
Proof.
  pose proof (client_error_ends_run_and_is_retried "q" refused_once 0
    {| status_code := 403; json_body := Json (Some []);
       content := EmptyString |}) as H.
  destruct H as (H1 & H2 & _ & _ & H3 & _).
  - lia.
  - intros i Hi. lia.
  - reflexivity.
  - simpl. lia.
  - simpl. discriminate.
  - split; [exact H1 | split; [exact H2 | exact H3]].
Defined.

(** C2, as stated, fails.  The quoted tier finds nothing, the
    plain-text request gets a 500, and the next request is the quoted
    one again, not the plain-text one. *)
Lemma tier_one_is_replayed :
  tier_result "q" outage_on_text 0 = Return [] /\
  tier_reply "q" outage_on_text 1 = answer 500 [] /\
  sent (snd (beat_search "q" outage_on_text)) =
    [SearchQuoted "q"; SearchText "q";
     SearchQuoted "q"; SearchText "q"; SearchAdvanced "q"].
Proof. repeat split. Qed.

(** C2, amended.  The retry policy covers the search as a whole, not
    each tier call.  When a tier that is reached answers with a 5xx,
    the decorator runs the whole search again, so the request that
    follows the failed one is the quoted request.  A search makes at
    most 3 runs, and every run asks the tiers in the order quoted,
    plain text, advanced, from the quoted one. *)
Theorem server_error_restarts_search q w n r :
  n < 3 ->
  (forall i, i < n -> tier_result q w i = Return []) ->
  tier_reply q w n = Answer r ->
  (500 <= status_code r)%Z ->
  beat_search q w =
    retrying 2 (beat_search_body q) (sent_more w (firstn (S n) (tiers q))) /\
  (exists rest,
      sent (snd (beat_search q w)) =
      sent w ++ firstn (S n) (tiers q) ++ SearchQuoted q :: rest) /\
  (exists runs : list nat,
      List.length runs <= 3 /\
      Forall (fun k => k < 3) runs /\
      sent (snd (beat_search q w)) =
      sent w ++ List.concat (map (fun k => firstn (S k) (tiers q)) runs)).
Proof.
  intros Hn Hbefore Hreply Hstatus.
  assert (Hres : tier_result q w n = Raise HTTPError).
  { unfold tier_result. rewrite Hreply. now apply tier_docs_server_error. }
  destruct (http_error_at_reached_tier q w n Hn Hbefore Hres) as [_ Hsearch].
  split; [exact Hsearch|]. split.
  - rewrite Hsearch.
    destruct (retrying_asks_quoted_first q 1
                (sent_more w (firstn (S n) (tiers q)))) as [rest Hrest].
    exists rest. rewrite Hrest. cbn [sent sent_more].
    now rewrite <- app_assoc.
  - apply retrying_runs.
Qed.

Lemma server_error_restarts_search_witness :
  exists rest,
    sent (snd (beat_search "q" outage_on_text)) =
    sent outage_on_text ++
      firstn 2 (tiers "q") ++ SearchQuoted "q" :: rest.
Proof.
  pose proof (server_error_restarts_search "q" outage_on_text 1
    {| status_code := 500; json_body := Json (Some []);
       content := EmptyString |}) as H.
  destruct H as (_ & H2 & _).
  - lia.
  - intros i Hi. destruct i as [|i]; [reflexivity | lia].
  - reflexivity.
  - simpl. lia.
  - exact H2.
Defined.

(** C3.  One run of the search asks the tiers in the order quoted,
    plain text, advanced, and stops at the first whose outcome is not
    an empty list; that outcome is the outcome of the run.  When the
    quoted tier returns at least one doc, the search returns those
    docs and the quoted request is the only one it sends. *)
Theorem tiers_in_order_short_circuit q w :
  beat_search_body q w =
    (tier_result q w (decisive_tier q w),
     sent_more w (firstn (S (decisive_tier q w)) (tiers q))) /\
  (forall i, i < decisive_tier q w -> tier_result q w i = Return []) /\
  (forall docs,
      tier_result q w 0 = Return docs -> docs <> [] ->
      beat_search q w = (Return docs, sent_more w [SearchQuoted q])).
Proof.
  split; [apply beat_search_body_spec|]. split.
  - intros i Hi. unfold decisive_tier in Hi.
    destruct (no_docs (tier_result q w 0)) eqn:E0; [|lia].
    destruct (no_docs (tier_result q w 1)) eqn:E1.
    + destruct i as [|[|i]]; try lia; now apply no_docs_true.
    + destruct i as [|i]; try lia; now apply no_docs_true.
  - intros docs Hres Hne.
    assert (Hk : decisive_tier q w = 0).
    { apply decisive_tier_reached; [lia | intros i Hi; lia |].
      rewrite Hres. destruct docs; [congruence | reflexivity]. }
    unfold beat_search. apply retrying_return.
    rewrite beat_search_body_spec, Hk, Hres. reflexivity.
Qed.

Lemma tiers_in_order_short_circuit_witness :
  beat_search "q" found_at_once =
    (Return [plain_doc "1a" "q" "x" 0.9],
     sent_more found_at_once [SearchQuoted "q"]).
Proof.
  destruct (tiers_in_order_short_circuit "q" found_at_once) as (_ & _ & H).
  apply H.
  - reflexivity.
  - discriminate.
Defined.

(** ** The selector *)

Lemma Qltb_lt x y : Qltb x y = true <-> (x < y)%Q.
Proof.
  unfold Qltb. rewrite Qlt_alt.
  destruct (x ?= y)%Q; split; congruence.
Qed.

Lemma Qltb_ge x y : Qltb x y = false <-> (y <= x)%Q.
Proof.
  split; intros H.
  - apply Qnot_lt_le. intros Hlt. apply Qltb_lt in Hlt. congruence.
  - destruct (Qltb x y) eqn:E; [|reflexivity].
    apply Qltb_lt in E. exfalso. now apply (Qlt_not_le x y).
Qed.

Section SortReverse.

Context {A : Type} (key : A -> Q).

Lemma insert_reverse_perm x l :
  Permutation (insert_reverse key x l) (x :: l).
Proof.
  induction l as [|y l IH]; simpl; [reflexivity|].
  destruct (Qltb (key x) (key y)); [|reflexivity].
  rewrite IH. apply perm_swap.
Qed.

(** The sorted list holds the same elements. *)
Lemma sort_reverse_perm l : Permutation (sort_reverse key l) l.
Proof.
  induction l as [|x l IH]; simpl; [reflexivity|].
  rewrite insert_reverse_perm. now constructor.
Qed.

Lemma insert_reverse_sorted x l :
  StronglySorted (key_ge key) l -> StronglySorted (key_ge key) (insert_reverse key x l).
Proof.
  induction 1 as [|y l Hl IH Hy]; simpl.
  - repeat constructor.
  - destruct (Qltb (key x) (key y)) eqn:E.
    + constructor; [exact IH|].
      apply Qltb_lt in E.
      rewrite Forall_forall in *. intros z Hz.
      apply (Permutation_in _ (insert_reverse_perm x l)) in Hz.
      destruct Hz as [<-|Hz]; [now apply Qlt_le_weak | now apply Hy].
    + apply Qltb_ge in E.
      constructor; [now constructor|].
      constructor; [exact E|].
      rewrite Forall_forall in *. intros z Hz.
      unfold key_ge. apply Qle_trans with (key y); [now apply Hy | exact E].
Qed.

(** The keys of the sorted list go down. *)
Lemma sort_reverse_sorted l : StronglySorted (key_ge key) (sort_reverse key l).
Proof.
  induction l as [|x l IH]; simpl; [constructor|].
  now apply insert_reverse_sorted.
Qed.

Lemma insert_reverse_stable k x l :
  filter (fun a => Qeq_bool (key a) k) (insert_reverse key x l) =
  filter (fun a => Qeq_bool (key a) k) (x :: l).
Proof.
  induction l as [|y l IH]; [reflexivity|].
  simpl insert_reverse.
  destruct (Qltb (key x) (key y)) eqn:E; [|reflexivity].
  apply Qltb_lt in E.
  cbn [filter] in *. rewrite IH.
  destruct (Qeq_bool (key x) k) eqn:Ex; [|reflexivity].
  destruct (Qeq_bool (key y) k) eqn:Ey; [|reflexivity].
  apply Qeq_bool_iff in Ex, Ey. exfalso.
  rewrite Ex, Ey in E. now apply (Qlt_irrefl k).
Qed.

(** The sort is stable: the elements of one key keep their order. *)
Lemma sort_reverse_stable k l :
  filter (fun a => Qeq_bool (key a) k) (sort_reverse key l) =
  filter (fun a => Qeq_bool (key a) k) l.
Proof.
  induction l as [|x l IH]; [reflexivity|].
  simpl sort_reverse. rewrite insert_reverse_stable.
  cbn [filter]. now rewrite IH.
Qed.

(** The head of the sorted list is the first element of the greatest
    key. *)
Lemma sort_reverse_head x l :
  exists before top after tl,
    x :: l = before ++ top :: after /\
    (forall a, In a before -> (key a < key top)%Q) /\
    (forall a, In a after -> (key a <= key top)%Q) /\
    sort_reverse key (x :: l) = top :: tl.
Proof.
  revert x. induction l as [|y l IH]; intros x.
  - exists [], x, [], []. simpl. repeat split; intros a [].
  - destruct (IH y) as (before & top & after & tl & Hsplit & Hb & Ha & Hsort).
    change (sort_reverse key (x :: y :: l))
      with (insert_reverse key x (sort_reverse key (y :: l))).
    rewrite Hsort. simpl insert_reverse.
    destruct (Qltb (key x) (key top)) eqn:E.
    + apply Qltb_lt in E.
      exists (x :: before), top, after, (insert_reverse key x tl).
      repeat split; auto.
      * rewrite Hsplit. reflexivity.
      * intros a [<-|Hin]; auto.
    + apply Qltb_ge in E.
      exists [], x, (y :: l), (top :: tl).
      repeat split; auto.
      * intros a [].
      * intros a Hin. rewrite Hsplit in Hin.
        apply in_app_or in Hin. destruct Hin as [Hin|[<-|Hin]].
        -- apply Qle_trans with (key top); [|exact E].
           apply Qlt_le_weak. now apply Hb.
        -- exact E.
        -- apply Qle_trans with (key top); [|exact E]. now apply Ha.
Qed.

End SortReverse.

Section SelectorFacts.

Variable lower : string -> string.
Variable partial_ratio : string -> string -> Q.

(** The loop is a filter: it keeps the docs that pass both tests, in
    the order of [docs]. *)
Lemma filter_loop_filter track_name artist_name docs filtered :
  filter_loop lower partial_ratio track_name artist_name docs filtered =
  filtered ++ filter (keeps lower partial_ratio track_name artist_name) docs.
Proof.
  revert filtered. induction docs as [|d rest IH]; intros filtered.
  - simpl. now rewrite app_nil_r.
  - cbn [filter_loop filter]. unfold keeps at 1.
    destruct (title_matches lower track_name d); cbn [andb].
    + destruct (artist_gate lower partial_ratio artist_name d).
      * rewrite IH, <- app_assoc. reflexivity.
      * apply IH.
    + apply IH.
Qed.

Lemma title_matches_iff track_name d :
  title_matches lower track_name d = true <->
  lower (display_name d) = lower track_name.
Proof. unfold title_matches. apply String.eqb_eq. Qed.

Lemma artist_gate_absent d :
  artist_gate lower partial_ratio None d = true /\
  artist_gate lower partial_ratio (Some EmptyString) d = true.
Proof. split; reflexivity. Qed.

Lemma artist_gate_given a d :
  a <> EmptyString ->
  artist_gate lower partial_ratio (Some a) d =
  negb (Qltb (artist_score lower partial_ratio a d) 80).
Proof.
  intros Ha. unfold artist_gate. simpl.
  destruct a; [congruence | reflexivity].
Qed.

(** [best_map] hands the docs that the loop kept to [pick_top]. *)
Lemma best_map_picks track_name artist_name w docs w' :
  beat_search track_name w = (Return docs, w') ->
  best_map lower partial_ratio track_name artist_name w =
  (Return (pick_top (filter_loop lower partial_ratio track_name artist_name
                       docs [])), w').
Proof.
  intros Hsearch. unfold best_map, bind. rewrite Hsearch.
  destruct (filter_loop lower partial_ratio track_name artist_name docs []);
    reflexivity.
Qed.

Lemma best_map_raises track_name artist_name w e w' :
  beat_search track_name w = (Raise e, w') ->
  best_map lower partial_ratio track_name artist_name w = (Raise e, w').
Proof. intros Hsearch. unfold best_map, bind. now rewrite Hsearch. Qed.

End SelectorFacts.

(** C4.  The loop keeps a doc exactly when it is one of [docs], its
    display name and the target track are equal once both are
    lower-cased, and it passes the artist gate; with no artist the
    lower-cased equality is the whole test.  The kept docs stay in
    the order of [docs].  With ASCII case folding, "Foo Bar" passes
    for the target "foo bar" and "Foo Bars" does not. *)
Theorem exact_title_filter :
  (forall lower partial_ratio track_name artist_name docs d,
      In d (filter_loop lower partial_ratio track_name artist_name docs [])
      <-> (In d docs /\ lower (display_name d) = lower track_name /\
           artist_gate lower partial_ratio artist_name d = true)) /\
  (forall lower partial_ratio track_name docs,
      filter_loop lower partial_ratio track_name None docs [] =
      filter (fun d => String.eqb (lower (display_name d)) (lower track_name))
             docs) /\
  filter_loop PyStr.ascii_lower (fixed_ratio 0) "foo bar" None
    [plain_doc "1a" "Foo Bars" "x" 1; plain_doc "2b" "Foo Bar" "y" 1] []
  = [plain_doc "2b" "Foo Bar" "y" 1].
Proof.
  split; [|split].
  - intros lower partial_ratio track_name artist_name docs d.
    rewrite filter_loop_filter. cbn [app].
    rewrite filter_In. unfold keeps.
    rewrite andb_true_iff, title_matches_iff. tauto.
  - intros lower partial_ratio track_name docs.
    rewrite filter_loop_filter. cbn [app].
    apply filter_ext. intros d.
    unfold keeps, title_matches, artist_gate. simpl.
    apply andb_true_r.
  - reflexivity.
Qed.

(** C5.  With a non-empty target artist, a doc fails the artist gate
    exactly when the partial-ratio score of the lower-cased artist and
    the lower-cased author is below 80: a score of 80 passes, a score
    of 79 fails.  A doc of [docs] with the right title is kept exactly
    when its score is not below 80. *)
Theorem artist_gate_threshold lower partial_ratio track_name a docs d :
  a <> EmptyString ->
  artist_score lower partial_ratio a d
    = partial_ratio (lower a) (lower (author_name d)) /\
  (artist_gate lower partial_ratio (Some a) d = false
   <-> (artist_score lower partial_ratio a d < 80)%Q) /\
  ((artist_score lower partial_ratio a d == 80)%Q ->
   artist_gate lower partial_ratio (Some a) d = true) /\
  ((artist_score lower partial_ratio a d == 79)%Q ->
   artist_gate lower partial_ratio (Some a) d = false) /\
  (In d docs -> lower (display_name d) = lower track_name ->
   (In d (filter_loop lower partial_ratio track_name (Some a) docs [])
    <-> ~ (artist_score lower partial_ratio a d < 80)%Q)).
Proof.
  intros Ha.
  assert (Hgate : artist_gate lower partial_ratio (Some a) d = false
                  <-> (artist_score lower partial_ratio a d < 80)%Q).
  { rewrite (artist_gate_given lower partial_ratio a d Ha).
    rewrite negb_false_iff. apply Qltb_lt. }
  split; [reflexivity|]. split; [exact Hgate|].
  split; [|split].
  - intros H80.
    destruct (artist_gate lower partial_ratio (Some a) d) eqn:E; [reflexivity|].
    pose proof (proj1 Hgate eq_refl) as Hlt.
    rewrite H80 in Hlt. discriminate Hlt.
  - intros H79. apply Hgate. rewrite H79. reflexivity.
  - intros Hin Htitle.
    rewrite filter_loop_filter. cbn [app].
    rewrite filter_In. unfold keeps.
    rewrite andb_true_iff, title_matches_iff.
    rewrite <- Hgate.
    destruct (artist_gate lower partial_ratio (Some a) d);
      intuition congruence.
Qed.

Lemma artist_gate_threshold_witness :
  artist_gate PyStr.ascii_lower (fixed_ratio 80) (Some "Daft Punk"%string)
    (plain_doc "1a" "One More Time" "daft punk" 0.8) = true /\
  artist_gate PyStr.ascii_lower (fixed_ratio 79) (Some "Daft Punk"%string)
    (plain_doc "1a" "One More Time" "daft punk" 0.8) = false.
Proof.
  split.
  - destruct (artist_gate_threshold PyStr.ascii_lower (fixed_ratio 80)
                "One More Time" "Daft Punk"
                [plain_doc "1a" "One More Time" "daft punk" 0.8]
                (plain_doc "1a" "One More Time" "daft punk" 0.8))
      as (_ & _ & H80 & _).
    + discriminate.
    + apply H80. reflexivity.
  - destruct (artist_gate_threshold PyStr.ascii_lower (fixed_ratio 79)
                "One More Time" "Daft Punk"
                [plain_doc "1a" "One More Time" "daft punk" 0.8]
                (plain_doc "1a" "One More Time" "daft punk" 0.8))
      as (_ & _ & _ & H79 & _).
    + discriminate.
    + apply H79. reflexivity.
Defined.

(** C6.  Of a non-empty list of surviving candidates the selector
    looks at the one with the highest score, and of several with that
    score at the one that comes first in the list: every candidate
    before it has a lower score, every candidate after it has no higher
    score.  It returns that candidate when its score is at least
    [MIN_RATE], which is 0.5, and none otherwise.  This is the result
    of [best_map] whenever the search returns docs of which the filter
    keeps this list. *)
Theorem pick_top_highest_score filtered :
  filtered <> [] ->
  exists before top after,
    filtered = before ++ top :: after /\
    (forall d, In d before -> (doc_score d < doc_score top)%Q) /\
    (forall d, In d after -> (doc_score d <= doc_score top)%Q) /\
    ((MIN_RATE <= doc_score top)%Q -> pick_top filtered = Some top) /\
    ((doc_score top < MIN_RATE)%Q -> pick_top filtered = None) /\
    (MIN_RATE == 0.5)%Q /\
    (forall lower partial_ratio track_name artist_name w docs w',
        beat_search track_name w = (Return docs, w') ->
        filter_loop lower partial_ratio track_name artist_name docs []
          = filtered ->
        best_map lower partial_ratio track_name artist_name w
          = (Return (pick_top filtered), w')).
Proof.
  intros Hne. destruct filtered as [|x l]; [congruence|].
  destruct (sort_reverse_head doc_score x l)
    as (before & top & after & tl & Hsplit & Hb & Ha & Hsort).
  exists before, top, after.
  unfold pick_top at 1 2. rewrite Hsort.
  repeat split; auto.
  - intros Hrate. apply Qle_bool_iff in Hrate. now rewrite Hrate.
  - intros Hrate.
    destruct (Qle_bool MIN_RATE (doc_score top)) eqn:E; [|reflexivity].
    apply Qle_bool_iff in E. exfalso. now apply (Qlt_not_le _ _ Hrate).
  - intros lower partial_ratio track_name artist_name w docs w' Hs Hf.
    rewrite <- Hf. now apply best_map_picks.
Qed.

Lemma pick_top_highest_score_witness :
  exists before top after,
    three_candidates = before ++ top :: after /\
    (forall d, In d before -> (doc_score d < doc_score top)%Q) /\
    (forall d, In d after -> (doc_score d <= doc_score top)%Q) /\
    ((MIN_RATE <= doc_score top)%Q -> pick_top three_candidates = Some top).
Proof.
  destruct (pick_top_highest_score three_candidates)
    as (before & top & after & Hsplit & Hb & Ha & Hsome & _).
  - discriminate.
  - exists before, top, after. auto.
Defined.

(** The examples of the specification: of two candidates with scores
    0.9 and 0.7 the first is selected, in either order; of two with
    the same score the earlier one; a single 0.4 is not selected. *)
Example pick_top_examples :
  pick_top [plain_doc "1a" "t" "x" 0.9; plain_doc "2b" "t" "x" 0.7]
    = Some (plain_doc "1a" "t" "x" 0.9) /\
  pick_top [plain_doc "2b" "t" "x" 0.7; plain_doc "1a" "t" "x" 0.9]
    = Some (plain_doc "1a" "t" "x" 0.9) /\
  pick_top three_candidates = Some (plain_doc "2b" "t" "x" 0.9) /\
  pick_top [plain_doc "1a" "t" "x" 0.4] = None.
Proof. repeat split. Qed.

(** ** The destination directory *)

Module PyStrFacts.
Import PyStr.

Lemma all_chars_keep f s : all_chars f (keep f s) = true.
Proof.
  induction s as [|c s IH]; simpl; [reflexivity|].
  destruct (f c) eqn:E; simpl; [now rewrite E|exact IH].
Qed.

Lemma all_chars_drop_leading f g s :
  all_chars f s = true -> all_chars f (drop_leading g s) = true.
Proof.
  induction s as [|c s IH]; simpl; [reflexivity|].
  intros H. apply andb_true_iff in H. destruct H as [Hc Hs].
  destruct (g c); simpl; [auto | now rewrite Hc, Hs].
Qed.

Lemma all_chars_drop_trailing f g s :
  all_chars f s = true -> all_chars f (drop_trailing g s) = true.
Proof.
  induction s as [|c s IH]; simpl; [reflexivity|].
  intros H. apply andb_true_iff in H. destruct H as [Hc Hs].
  destruct (g c && is_empty (drop_trailing g s)); simpl;
    [reflexivity | now rewrite Hc, IH].
Qed.

Lemma all_chars_map_chars f g h s :
  (forall c, f c = true -> g (h c) = true) ->
  all_chars f s = true -> all_chars g (map_chars h s) = true.
Proof.
  intros Hfg. induction s as [|c s IH]; simpl; [reflexivity|].
  intros H. apply andb_true_iff in H. destruct H as [Hc Hs].
  now rewrite (Hfg c Hc), IH.
Qed.

Lemma all_chars_weaken f g s :
  (forall c, f c = true -> g c = true) ->
  all_chars f s = true -> all_chars g s = true.
Proof.
  intros Hfg. induction s as [|c s IH]; simpl; [reflexivity|].
  intros H. apply andb_true_iff in H. destruct H as [Hc Hs].
  now rewrite (Hfg c Hc), IH.
Qed.

Lemma all_chars_append f s t :
  all_chars f (s +:+ t) = all_chars f s && all_chars f t.
Proof.
  induction s as [|c s IH]; simpl; [reflexivity|].
  now rewrite IH, andb_assoc.
Qed.

(** Two tests that agree on the characters of [s] drop the same. *)
Lemma drop_leading_agree f g h s :
  (forall c, h c = true -> f c = g c) ->
  all_chars h s = true -> drop_leading f s = drop_leading g s.
Proof.
  intros Hfg. induction s as [|c s IH]; simpl; [reflexivity|].
  intros H. apply andb_true_iff in H. destruct H as [Hc Hs].
  rewrite (Hfg c Hc). destruct (g c); auto.
Qed.

Lemma drop_trailing_agree f g h s :
  (forall c, h c = true -> f c = g c) ->
  all_chars h s = true -> drop_trailing f s = drop_trailing g s.
Proof.
  intros Hfg. induction s as [|c s IH]; simpl; [reflexivity|].
  intros H. apply andb_true_iff in H. destruct H as [Hc Hs].
  now rewrite (Hfg c Hc), (IH Hs).
Qed.

End PyStrFacts.

Ltac each_char c :=
  destruct c as [[] [] [] [] [] [] [] []]; try reflexivity; try discriminate.

Lemma allowed_space c : allowed c = true -> PyStr.is_space c = is_blank c.
Proof. each_char c. Qed.

Lemma allowed_name_char c :
  allowed c = true -> name_char (if Ascii.eqb c " " then "_"%char else c) = true.
Proof. each_char c. Qed.

Lemma name_char_plain c :
  name_char c = true ->
  negb (Ascii.eqb c "/") && negb (Ascii.eqb c ".") && negb (Ascii.eqb c " ")
  = true.
Proof. each_char c. Qed.

Lemma clean_sanitize s : clean s = sanitize s.
Proof.
  unfold clean, sanitize, PyStr.strip, PyStr.replace.
  pose proof (PyStrFacts.all_chars_keep allowed s) as Hkeep.
  rewrite (PyStrFacts.drop_leading_agree _ _ _ _ allowed_space Hkeep).
  rewrite (PyStrFacts.drop_trailing_agree PyStr.is_space is_blank allowed
             _ allowed_space).
  - reflexivity.
  - now apply PyStrFacts.all_chars_drop_leading.
Qed.

Lemma clean_name_chars s : PyStr.all_chars name_char (clean s) = true.
Proof.
  unfold clean, PyStr.strip, PyStr.replace.
  apply PyStrFacts.all_chars_map_chars with (f := allowed).
  - exact allowed_name_char.
  - apply PyStrFacts.all_chars_drop_trailing,
          PyStrFacts.all_chars_drop_leading, PyStrFacts.all_chars_keep.
Qed.

(** C7.  The destination is the output root [maps] followed by one
    component, [clean artist], a hyphen, [clean track].  [clean] is
    the sanitizer of the specification.  The component is made of
    letters, digits, hyphens and underscores only, so it holds no
    slash, no dot and no blank.  For "AC/DC" and "T.N.T." it is
    "ACDC-TNT". *)
Theorem dest_dir_sanitized artist track :
  dest_dir artist track
    = [OUT_DIR; sanitize artist +:+ "-" +:+ sanitize track] /\
  OUT_DIR = "maps"%string /\
  PyStr.all_chars name_char (dir_name artist track) = true /\
  PyStr.all_chars
    (fun c => negb (Ascii.eqb c "/") && negb (Ascii.eqb c ".")
              && negb (Ascii.eqb c " "))
    (dir_name artist track) = true /\
  dest_dir "AC/DC" "T.N.T." = ["maps"; "ACDC-TNT"]%string.
Proof.
  assert (Hname : PyStr.all_chars name_char (dir_name artist track) = true).
  { unfold dir_name. rewrite !PyStrFacts.all_chars_append.
    now rewrite !clean_name_chars. }
  repeat split.
  - unfold dest_dir, dir_name. now rewrite !clean_sanitize.
  - exact Hname.
  - revert Hname. apply PyStrFacts.all_chars_weaken. exact name_char_plain.
Qed.

(** ** Download and extraction *)

Lemma path_eqb_refl p : path_eqb p p = true.
Proof.
  induction p as [|a p IH]; simpl; [reflexivity|].
  now rewrite String.eqb_refl, IH.
Qed.

Lemma fs_read_snoc ops op :
  fs_read (ops ++ [op]) = fs_step (fs_read ops) op.
Proof. unfold fs_read. now rewrite fold_left_app. Qed.

Lemma fs_step_keeps fs op p :
  is_remove op = false -> fs p <> None -> fs_step fs op p <> None.
Proof.
  intros Hop Hp. unfold fs_step. destruct op as [q|q data|q]; simpl in *.
  - destruct (leads p q); [|exact Hp]. destruct (fs p); congruence.
  - destruct (path_eqb p q); [discriminate | exact Hp].
  - discriminate.
Qed.

(** What is on the disk stays there as long as nothing is removed. *)
Lemma fs_read_keeps ops more p :
  forallb (fun op => negb (is_remove op)) more = true ->
  fs_read ops p <> None -> fs_read (ops ++ more) p <> None.
Proof.
  revert ops. induction more as [|op more IH]; intros ops Hmore Hp.
  - now rewrite app_nil_r.
  - simpl in Hmore. apply andb_true_iff in Hmore. destruct Hmore as [Hop Hmore].
    change (op :: more) with ([op] ++ more). rewrite app_assoc.
    apply IH; [exact Hmore|].
    rewrite fs_read_snoc. apply fs_step_keeps; [|exact Hp].
    now apply negb_true_iff.
Qed.

Lemma stores_remove_nothing dest ms :
  forallb (fun op => negb (is_remove op)) (map (store_under dest) ms) = true.
Proof. induction ms as [|m ms IH]; simpl; auto. Qed.

Section AcquirerFacts.

Variable zipfile : string -> Archive.

(** A download that is answered with status 200, step by step. *)
Lemma download_and_extract_200 bs_id a track w r :
  server w (map url (sent w ++ [DownloadKey bs_id])) = Answer r ->
  status_code r = 200%Z ->
  download_and_extract zipfile bs_id (Some a) track w =
  match corrupt_at (zipfile (content r)) with
  | Some k =>
      (Raise BadZipFile,
       world_after w [DownloadKey bs_id]
         (save_archive bs_id a track (content r) ++
          map (store_under (dest_dir a track))
              (firstn k (members (zipfile (content r))))))
  | None =>
      (Return true,
       world_after w [DownloadKey bs_id]
         (save_archive bs_id a track (content r) ++
          map (store_under (dest_dir a track))
              (members (zipfile (content r))) ++
          [Remove (zip_path bs_id a track)]))
  end.
Proof.
  intros Hreply Hstatus.
  unfold download_and_extract, bind at 1.
  rewrite requests_get_first, Hreply, Hstatus. cbn [Z.eqb Pos.eqb negb].
  unfold raise_for_status. rewrite Hstatus.
  unfold bind, lift, ret, raise, fs_do, extractall. cbn -[fs_read zip_path dest_dir].
  fold (zip_path bs_id a track).
  rewrite fs_read_snoc. cbn [fs_step]. rewrite path_eqb_refl.
  unfold bind, fs_do, raise. cbn -[zip_path dest_dir].
  unfold world_after, save_archive.
  destruct (corrupt_at (zipfile (content r))) as [k|];
    cbn -[zip_path dest_dir]; repeat rewrite <- app_assoc; reflexivity.
Qed.

(** A download that is answered with another status stops there:
    nothing is written. *)
Lemma download_and_extract_not_200 bs_id artist track w r :
  server w (map url (sent w ++ [DownloadKey bs_id])) = Answer r ->
  status_code r <> 200%Z ->
  download_and_extract zipfile bs_id artist track w =
  (Return false, world_after w [DownloadKey bs_id] []).
Proof.
  intros Hreply Hstatus.
  unfold download_and_extract, bind at 1.
  rewrite requests_get_first, Hreply.
  destruct (status_code r =? 200)%Z eqn:E; [lia|].
  unfold ret, world_after, sent_more. cbn. now rewrite app_nil_r.
Qed.

End AcquirerFacts.

(** C8.  When the download is answered with status 200 and reading
    the archive fails, [download_and_extract] raises (BadZipFile), the
    members before the failure are on the disk, nothing was removed and
    the archive file is still there.  When reading the archive does not
    fail, every member is stored under the destination directory and
    the removal of the archive file is the last operation, after all
    of them. *)
Theorem archive_removed_after_full_extraction zipfile bs_id a track w r :
  server w (map url (sent w ++ [DownloadKey bs_id])) = Answer r ->
  status_code r = 200%Z ->
  (forall k,
      corrupt_at (zipfile (content r)) = Some k ->
      download_and_extract zipfile bs_id (Some a) track w =
        (Raise BadZipFile,
         world_after w [DownloadKey bs_id]
           (save_archive bs_id a track (content r) ++
            map (store_under (dest_dir a track))
                (firstn k (members (zipfile (content r)))))) /\
      forallb (fun op => negb (is_remove op))
        (save_archive bs_id a track (content r) ++
         map (store_under (dest_dir a track))
             (firstn k (members (zipfile (content r))))) = true /\
      fs_read
        (disk (snd (download_and_extract zipfile bs_id (Some a) track w)))
        (zip_path bs_id a track) <> None) /\
  (corrupt_at (zipfile (content r)) = None ->
   download_and_extract zipfile bs_id (Some a) track w =
     (Return true,
      world_after w [DownloadKey bs_id]
        (save_archive bs_id a track (content r) ++
         map (store_under (dest_dir a track))
             (members (zipfile (content r))) ++
         [Remove (zip_path bs_id a track)]))).
Proof.
  intros Hreply Hstatus.
  pose proof (download_and_extract_200 zipfile bs_id a track w r
                Hreply Hstatus) as Hrun.
  split.
  - intros k Hk. rewrite Hk in Hrun. rewrite Hrun.
    split; [reflexivity|]. split.
    + rewrite forallb_app. cbn [save_archive forallb is_remove negb andb].
      apply stores_remove_nothing.
    + cbn [snd disk world_after].
      rewrite app_assoc. apply fs_read_keeps.
      * apply stores_remove_nothing.
      * unfold save_archive.
        change [MkDir (dest_dir a track);
                Store (zip_path bs_id a track) (content r)]
          with ([MkDir (dest_dir a track)] ++
                [Store (zip_path bs_id a track) (content r)]).
        rewrite app_assoc, fs_read_snoc. cbn [fs_step].
        rewrite path_eqb_refl. discriminate.
  - intros Hok. now rewrite Hok in Hrun.
Qed.

Lemma archive_removed_after_full_extraction_witness :
  download_and_extract toy_zipfile "1a" (Some "AC/DC"%string) "T.N.T."
    {| server := scripted [download 200 "!PK"]; sent := []; disk := [] |}
  = (Raise BadZipFile,
     {| server := scripted [download 200 "!PK"];
        sent := [DownloadKey "1a"];
        disk := [MkDir ["maps"; "ACDC-TNT"];
                 Store ["maps"; "ACDC-TNT"; "1a.zip"] "!PK";
                 Store ["maps"; "ACDC-TNT"; "Info.dat"] "info"]%string |}).
Proof.
  destruct (archive_removed_after_full_extraction toy_zipfile
              "1a" "AC/DC" "T.N.T."
              {| server := scripted [download 200 "!PK"];
                 sent := []; disk := [] |}
              {| status_code := 200; json_body := NotJson;
                 content := "!PK" |}) as [Hbad _].
  - reflexivity.
  - reflexivity.
  - destruct (Hbad 1) as [Hrun _]; [reflexivity|]. exact Hrun.
Defined.

(** ** The driver *)

Section DriverFacts.

Variable lower : string -> string.
Variable partial_ratio : string -> string -> Q.
Variable zipfile : string -> Archive.

Local Abbreviation run_attempt := (attempt lower partial_ratio zipfile).
Local Abbreviation run_turn := (turn lower partial_ratio zipfile).
Local Abbreviation run_loop := (main_loop lower partial_ratio zipfile).
Local Abbreviation succeeds := (succeeds lower partial_ratio zipfile).
Local Abbreviation outcomes := (outcomes lower partial_ratio zipfile).

Lemma turn_spec t acc w :
  run_turn t acc w =
  ((if succeeds t w then (fst acc ++ [label t], snd acc)
    else (fst acc, snd acc ++ [label t])),
   snd (run_attempt t w)).
Proof.
  unfold turn, succeeds.
  destruct (run_attempt t w) as [[[|]|e] w']; reflexivity.
Qed.

Lemma main_loop_outcomes tracks acc w :
  fst (run_loop tracks acc w) =
  (fst acc ++ labels_of true (outcomes tracks w),
   snd acc ++ labels_of false (outcomes tracks w)).
Proof.
  revert acc w. induction tracks as [|t rest IH]; intros acc w.
  - simpl. unfold labels_of. simpl. rewrite !app_nil_r. now destruct acc.
  - cbn [main_loop]. rewrite turn_spec. rewrite IH.
    cbn [outcomes]. unfold labels_of. cbn [filter snd fst].
    destruct (succeeds t w); cbn [Bool.eqb map fst snd];
      now rewrite <- ?app_assoc.
Qed.

Lemma outcomes_tracks tracks w : map fst (outcomes tracks w) = tracks.
Proof.
  revert w. induction tracks as [|t rest IH]; intros w; simpl;
    [reflexivity | now rewrite IH].
Qed.

Lemma labels_of_length l :
  List.length (labels_of true l) + List.length (labels_of false l)
  = List.length l.
Proof.
  unfold labels_of. induction l as [|[t [|]] l IH]; simpl in *; lia.
Qed.

End DriverFacts.

(** C9.  When the chain of a track raises, whatever the exception, the
    loop adds the label of the track to the not-found list, leaves the
    downloaded list as it is and goes on with the remaining tracks,
    from the world the failed chain left.  The driver always returns
    the two lists; each holds the labels of its tracks in the order of
    the track list, every chain run in the world its predecessor left. *)
Theorem exception_is_caught_per_track lower partial_ratio zipfile :
  (forall t rest acc w e w',
      attempt lower partial_ratio zipfile t w = (Raise e, w') ->
      main_loop lower partial_ratio zipfile (t :: rest) acc w =
      main_loop lower partial_ratio zipfile rest
        (fst acc, snd acc ++ [label t]) w') /\
  (forall tracks w,
      map fst (outcomes lower partial_ratio zipfile tracks w) = tracks /\
      fst (main lower partial_ratio zipfile tracks w) =
      (labels_of true (outcomes lower partial_ratio zipfile tracks w),
       labels_of false (outcomes lower partial_ratio zipfile tracks w))) /\
  (forall t, label t = PyStr.str (artist t) +:+ " - " +:+ track t).
Proof.
  split; [|split].
  - intros t rest acc w e w' Hraise.
    cbn [main_loop]. unfold turn. now rewrite Hraise.
  - intros tracks w. split; [apply outcomes_tracks|].
    unfold main. now rewrite main_loop_outcomes.
  - reflexivity.
Qed.

Lemma exception_is_caught_per_track_witness :
  attempt PyStr.ascii_lower (fixed_ratio 100) toy_zipfile daft_punk
    one_corrupt_archive
  = (Raise BadZipFile,
     world_after one_corrupt_archive
       [SearchQuoted "One More Time"; DownloadKey "abcd"]
       [MkDir ["maps"; "Daft_Punk-One_More_Time"];
        Store ["maps"; "Daft_Punk-One_More_Time"; "abcd.zip"] "!PK";
        Store ["maps"; "Daft_Punk-One_More_Time"; "Info.dat"] "info"]%string)
  /\
  fst (main PyStr.ascii_lower (fixed_ratio 100) toy_zipfile [daft_punk; acdc]
         one_corrupt_archive)
  = (["AC/DC - T.N.T."], ["Daft Punk - One More Time"])%string.
Proof.
  assert (Hraise :
    attempt PyStr.ascii_lower (fixed_ratio 100) toy_zipfile daft_punk
      one_corrupt_archive
    = (Raise BadZipFile,
       world_after one_corrupt_archive
         [SearchQuoted "One More Time"; DownloadKey "abcd"]
         [MkDir ["maps"; "Daft_Punk-One_More_Time"];
          Store ["maps"; "Daft_Punk-One_More_Time"; "abcd.zip"] "!PK";
          Store ["maps"; "Daft_Punk-One_More_Time"; "Info.dat"] "info"]%string))
    by reflexivity.
  split; [exact Hraise|].
  unfold main.
  rewrite (proj1 (exception_is_caught_per_track PyStr.ascii_lower
                    (fixed_ratio 100) toy_zipfile)
             daft_punk [acdc] ([], []) one_corrupt_archive _ _ Hraise).
  reflexivity.
Defined.

(** C10.  Every turn of the loop adds the label of its track to
    exactly one of the two lists and leaves the other as it is; so the
    two lists of the driver hold together as many labels as there are
    tracks. *)
Theorem every_track_counted_once lower partial_ratio zipfile tracks w :
  (forall t acc w0,
      fst (turn lower partial_ratio zipfile t acc w0)
        = (fst acc ++ [label t], snd acc) \/
      fst (turn lower partial_ratio zipfile t acc w0)
        = (fst acc, snd acc ++ [label t])) /\
  List.length (fst (fst (main lower partial_ratio zipfile tracks w))) +
  List.length (snd (fst (main lower partial_ratio zipfile tracks w)))
  = List.length tracks.
Proof.
  split.
  - intros t acc w0. rewrite turn_spec.
    destruct (succeeds lower partial_ratio zipfile t w0); auto.
  - unfold main. rewrite main_loop_outcomes. cbn [fst snd app].
    rewrite labels_of_length.
    rewrite <- (outcomes_tracks lower partial_ratio zipfile tracks w) at 2.
    now rewrite length_map.
Qed.

(** The two end-to-end scenarios of the specification. *)
Example one_more_time_downloaded :
  main PyStr.ascii_lower (fixed_ratio 100) toy_zipfile [daft_punk]
    (fresh [answer 200 [plain_doc "abcd" "One More Time" "Daft Punk" 0.8];
            download 200 "PK"])
  = ((["Daft Punk - One More Time"], [])%string,
     world_after
       (fresh [answer 200 [plain_doc "abcd" "One More Time" "Daft Punk" 0.8];
               download 200 "PK"])
       [SearchQuoted "One More Time"; DownloadKey "abcd"]
       [MkDir ["maps"; "Daft_Punk-One_More_Time"];
        Store ["maps"; "Daft_Punk-One_More_Time"; "abcd.zip"] "PK";
        Store ["maps"; "Daft_Punk-One_More_Time"; "Info.dat"] "info";
        Store ["maps"; "Daft_Punk-One_More_Time"; "song.egg"] "egg";
        Remove ["maps"; "Daft_Punk-One_More_Time"; "abcd.zip"]]%string).
Proof. reflexivity. Qed.

Example one_more_time_not_found :
  main PyStr.ascii_lower (fixed_ratio 100) toy_zipfile [daft_punk]
    (fresh [answer 404 []; answer 404 []; answer 404 []])
  = (([], ["Daft Punk - One More Time"])%string,
     world_after (fresh [answer 404 []; answer 404 []; answer 404 []])
       (tiers "One More Time") []).
Proof. reflexivity. Qed.

(** * Further properties of the code *)

(** ** The search *)

(** A run of the search leaves the catalogue and the disk as they are. *)
Lemma beat_search_body_frame q w :
  server (snd (beat_search_body q w)) = server w /\
  disk (snd (beat_search_body q w)) = disk w.
Proof. rewrite beat_search_body_spec. split; reflexivity. Qed.

Lemma in_firstn {A} n (l : list A) x : In x (firstn n l) -> In x l.
Proof.
  intros H. rewrite <- (firstn_skipn n l). apply in_or_app. now left.
Qed.

(** The requests of a search, however many runs it makes. *)
Lemma retrying_requests q n w :
  exists new,
    sent (snd (retrying n (beat_search_body q) w)) = sent w ++ new /\
    List.length new <= 3 * n /\
    Forall (fun req => In req (tiers q)) new /\
    server (snd (retrying n (beat_search_body q) w)) = server w /\
    disk (snd (retrying n (beat_search_body q) w)) = disk w.
Proof.
  revert w. induction n as [|n IH]; intros w.
  - exists []. simpl. rewrite app_nil_r. auto.
  - simpl retrying. rewrite beat_search_body_spec.
    set (k := decisive_tier q w).
    assert (Hk : k < 3) by apply decisive_tier_lt.
    set (run := firstn (S k) (tiers q)).
    assert (Hlen : List.length run <= 3).
    { unfold run. rewrite length_firstn. simpl. lia. }
    assert (Hin : Forall (fun req => In req (tiers q)) run).
    { apply Forall_forall. intros req Hreq. unfold run in Hreq.
      now apply in_firstn in Hreq. }
    assert (Hone : exists new,
               sent (sent_more w run) = sent w ++ new /\
               List.length new <= 3 * S n /\
               Forall (fun req => In req (tiers q)) new /\
               server (sent_more w run) = server w /\
               disk (sent_more w run) = disk w).
    { exists run. repeat split; auto. lia. }
    destruct (tier_result q w k) as [docs|e]; [exact Hone|].
    destruct e; try exact Hone.
    destruct (IH (sent_more w run)) as (new & Hsent & Hnew & Hall & Hserver & Hdisk).
    exists (run ++ new). rewrite Hsent, Hserver, Hdisk.
    repeat split.
    + cbn [sent sent_more]. now rewrite app_assoc.
    + rewrite length_app. lia.
    + apply Forall_app. auto.
Qed.

Lemma decisive_tier_no_docs q w :
  tier_result q w (decisive_tier q w) = Return [] -> decisive_tier q w = 2.
Proof.
  unfold decisive_tier.
  destruct (no_docs (tier_result q w 0)) eqn:E0.
  - destruct (no_docs (tier_result q w 1)) eqn:E1; [reflexivity|].
    intros H. rewrite H in E1. discriminate.
  - intros H. rewrite H in E0. discriminate.
Qed.

Lemma retrying_returns q n w docs w' :
  retrying n (beat_search_body q) w = (Return docs, w') ->
  (exists r, server w (map url (sent w')) = Answer r /\
             tier_docs r = Return docs) /\
  (docs = [] -> exists earlier, sent w' = sent w ++ earlier ++ tiers q).
Proof.
  revert w w'. induction n as [|n IH]; intros w w'; [discriminate|].
  simpl retrying. rewrite beat_search_body_spec.
  destruct (tier_result q w (decisive_tier q w)) as [docs0|e] eqn:Hres.
  - intros [= -> <-]. split.
    + unfold tier_result, tier_reply in Hres. cbn [sent sent_more].
      destruct (server w (map url (sent w ++
                  firstn (S (decisive_tier q w)) (tiers q)))) as [r|] eqn:Hrep;
        [|discriminate Hres].
      exists r. auto.
    + intros ->. apply decisive_tier_no_docs in Hres. rewrite Hres.
      exists []. reflexivity.
  - destruct e; try discriminate.
    intros Hrest. apply IH in Hrest. cbn [server sent sent_more] in Hrest.
    destruct Hrest as [Hlast Hempty]. split; [exact Hlast|].
    intros Hdocs. destruct (Hempty Hdocs) as [earlier Hsent].
    exists (firstn (S (decisive_tier q w)) (tiers q) ++ earlier).
    rewrite Hsent. now rewrite <- !app_assoc.
Qed.

(** X1.  A search never raises [HTTPError] to its caller: the decorator
    turns it into another run or into [RetryError].  A search raises
    [RetryError] exactly when three runs in a row, each from the world
    the one before left, raised [HTTPError]. *)
Theorem search_raises_retry_error_after_three_runs q w :
  fst (beat_search q w) <> Raise HTTPError /\
  (forall w',
      beat_search q w = (Raise RetryError, w') <->
      exists w1 w2,
        beat_search_body q w = (Raise HTTPError, w1) /\
        beat_search_body q w1 = (Raise HTTPError, w2) /\
        beat_search_body q w2 = (Raise HTTPError, w')).
Proof.
  unfold beat_search. split; [apply retrying_never_http_error|].
  intros w'. rewrite retrying_retry_error. split.
  - intros (w1 & H1 & H). apply retrying_retry_error in H.
    destruct H as (w2 & H2 & H). apply retrying_retry_error in H.
    destruct H as (w3 & H3 & [= <-]). exists w1, w2. auto.
  - intros (w1 & w2 & H1 & H2 & H3). exists w1. split; [exact H1|].
    apply retrying_retry_error. exists w2. split; [exact H2|].
    apply retrying_retry_error. exists w'. auto.
Qed.

Lemma search_raises_retry_error_after_three_runs_witness :
  beat_search "q" always_503 =
  (Raise RetryError,
   sent_more always_503 [SearchQuoted "q"; SearchQuoted "q"; SearchQuoted "q"]).
Proof.
  apply (proj2 (search_raises_retry_error_after_three_runs "q" always_503)).
  exists (sent_more always_503 [SearchQuoted "q"]),
         (sent_more always_503 [SearchQuoted "q"; SearchQuoted "q"]).
  repeat split.
Defined.

(** X2.  A failure that is no [HTTPError] (a request without answer,
    a body that is no JSON) is not retried: when a tier that is reached
    fails so, the search raises that exception after the requests of
    this one run. *)
Theorem other_failure_is_not_retried q w n e :
  n < 3 ->
  (forall i, i < n -> tier_result q w i = Return []) ->
  tier_result q w n = Raise e ->
  e <> HTTPError ->
  beat_search q w = (Raise e, sent_more w (firstn (S n) (tiers q))).
Proof.
  intros Hn Hbefore Hres He.
  assert (Hk : decisive_tier q w = n).
  { apply decisive_tier_reached; auto. now rewrite Hres. }
  unfold beat_search. apply retrying_other; [|exact He].
  now rewrite beat_search_body_spec, Hk, Hres.
Qed.

Lemma other_failure_is_not_retried_witness :
  beat_search "q" garbled_text =
  (Raise JSONDecodeError,
   sent_more garbled_text [SearchQuoted "q"; SearchText "q"]).
Proof.
  apply (other_failure_is_not_retried "q" garbled_text 1 JSONDecodeError).
  - lia.
  - intros i Hi. destruct i as [|i]; [reflexivity | lia].
  - reflexivity.
  - discriminate.
Defined.

(** X3.  A search sends at least one request and at most nine, the
    first of them the quoted one, all of them one of the three
    requests of its query; it leaves the disk as it is. *)
Theorem search_sends_one_to_nine_requests q w :
  exists rest,
    sent (snd (beat_search q w)) = sent w ++ SearchQuoted q :: rest /\
    List.length rest <= 8 /\
    Forall (fun req => In req (tiers q)) rest /\
    disk (snd (beat_search q w)) = disk w.
Proof.
  unfold beat_search.
  destruct (retrying_requests q 3 w) as (new & Hsent & Hlen & Hall & _ & Hdisk).
  destruct (retrying_asks_quoted_first q 2 w) as [rest Hrest].
  rewrite Hsent in Hrest. apply app_inv_head in Hrest. subst new.
  exists rest. rewrite Hsent.
  inversion Hall; subst. simpl in Hlen.
  repeat split; auto. lia.
Qed.

(** X4.  The docs a search returns are those of the answer to the last
    request it sent.  When it returns no docs, the last three requests
    it sent are the quoted, the plain-text and the advanced one: an
    empty result means that all three tiers were asked. *)
Theorem search_returns_last_answer q w docs w' :
  beat_search q w = (Return docs, w') ->
  (exists r, server w (map url (sent w')) = Answer r /\
             tier_docs r = Return docs) /\
  (docs = [] -> exists earlier, sent w' = sent w ++ earlier ++ tiers q).
Proof. unfold beat_search. apply retrying_returns. Qed.

Lemma search_returns_last_answer_witness :
  exists earlier,
    sent (sent_more (fresh [answer 404 []; answer 404 []; answer 404 []])
            (tiers "q"))
    = sent (fresh [answer 404 []; answer 404 []; answer 404 []])
        ++ earlier ++ tiers "q".
Proof.
  apply (search_returns_last_answer "q"
           (fresh [answer 404 []; answer 404 []; answer 404 []]) []
           (sent_more (fresh [answer 404 []; answer 404 []; answer 404 []])
              (tiers "q"))); reflexivity.
Defined.

(** ** The addresses of the search *)

Lemma quote_append s t :
  PyStr.quote (s +:+ t) = PyStr.quote s +:+ PyStr.quote t.
Proof.
  induction s as [|c s IH]; simpl; [reflexivity|].
  destruct (PyStr.unreserved c); simpl; now rewrite IH.
Qed.

Lemma hex_digits_encoded c :
  encoded_char (PyStr.hex_digit (PyStr.code c / 16)) = true /\
  encoded_char (PyStr.hex_digit (PyStr.code c mod 16)) = true.
Proof. each_char c; split; reflexivity. Qed.

Lemma quote_encoded s : PyStr.all_chars encoded_char (PyStr.quote s) = true.
Proof.
  induction s as [|c s IH]; [reflexivity|].
  cbn [PyStr.quote].
  destruct (PyStr.unreserved c) eqn:E; cbn [PyStr.all_chars].
  - unfold encoded_char at 1. now rewrite E, IH.
  - destruct (hex_digits_encoded c) as [Hhi Hlo]. now rewrite Hhi, Hlo, IH.
Qed.

Lemma encoded_char_plain c :
  encoded_char c = true ->
  negb (Ascii.eqb c "&") && negb (Ascii.eqb c "=") && negb (Ascii.eqb c "#")
  && negb (Ascii.eqb c "?") && negb (Ascii.eqb c "/")
  && negb (Ascii.eqb c " ") && negb (Ascii.eqb c PyStr.dquote) = true.
Proof. each_char c. Qed.

Lemma hex_digit_inj n m :
  n < 16 -> m < 16 -> PyStr.hex_digit n = PyStr.hex_digit m -> n = m.
Proof.
  intros Hn Hm.
  do 16 (destruct n as [|n]; [do 16 (destruct m as [|m];
           [try reflexivity; discriminate|]); lia|]).
  lia.
Qed.

Lemma hex_pair_inj c d :
  PyStr.hex_digit (PyStr.code c / 16) = PyStr.hex_digit (PyStr.code d / 16) ->
  PyStr.hex_digit (PyStr.code c mod 16) = PyStr.hex_digit (PyStr.code d mod 16) ->
  c = d.
Proof.
  intros Hhi Hlo.
  assert (Hc : PyStr.code c < 256) by apply nat_ascii_bounded.
  assert (Hd : PyStr.code d < 256) by apply nat_ascii_bounded.
  apply hex_digit_inj in Hhi;
    [| apply Nat.Div0.div_lt_upper_bound; lia
     | apply Nat.Div0.div_lt_upper_bound; lia].
  apply hex_digit_inj in Hlo;
    [| apply Nat.mod_upper_bound; lia | apply Nat.mod_upper_bound; lia].
  assert (Heq : PyStr.code c = PyStr.code d).
  { rewrite (Nat.div_mod_eq (PyStr.code c) 16).
    rewrite (Nat.div_mod_eq (PyStr.code d) 16). now rewrite Hhi, Hlo. }
  unfold PyStr.code in Heq.
  rewrite <- (ascii_nat_embedding c), <- (ascii_nat_embedding d).
  now rewrite Heq.
Qed.

Lemma quote_inj s t : PyStr.quote s = PyStr.quote t -> s = t.
Proof.
  revert t. induction s as [|c s IH]; intros [|d t]; simpl.
  - reflexivity.
  - destruct (PyStr.unreserved d); discriminate.
  - destruct (PyStr.unreserved c); discriminate.
  - destruct (PyStr.unreserved c) eqn:Ec, (PyStr.unreserved d) eqn:Ed.
    + intros [= -> Hrest]. f_equal. now apply IH.
    + intros [= -> _]. discriminate Ec.
    + intros [= <- _]. discriminate Ed.
    + intros [= Hhi Hlo Hrest]. f_equal; [now apply hex_pair_inj | now apply IH].
Qed.

Lemma length_append s t :
  String.length (s +:+ t) = String.length s + String.length t.
Proof. induction s as [|c s IH]; simpl; [reflexivity | now rewrite IH]. Qed.

Lemma append_inv_head s a b : s +:+ a = s +:+ b -> a = b.
Proof.
  induction s as [|c s IH]; simpl; [auto|]. intros [= H]. auto.
Qed.

Lemma append_inv_tail s a b : a +:+ s = b +:+ s -> a = b.
Proof.
  revert b. induction a as [|c a IH]; intros [|d b]; simpl; intros H.
  - reflexivity.
  - exfalso. apply (f_equal String.length) in H. simpl in H.
    rewrite length_append in H. lia.
  - exfalso. apply (f_equal String.length) in H. simpl in H.
    rewrite length_append in H. lia.
  - injection H as -> H. f_equal. now apply IH.
Qed.

(** X5.  The query travels percent-encoded: what follows [q=] in the
    address of a text search is made of letters, digits, [_.-~] and
    [%XX] escapes only, so no blank, quote, [&], [=], [#], [?] or [/]
    of a track name reaches the address as such.  The quoted tier
    sends the same encoded query between two [%22]. *)
Theorem search_query_is_percent_encoded q :
  url (SearchText q) = text_search_base +:+ PyStr.quote q /\
  url (SearchQuoted q)
    = text_search_base +:+ "%22" +:+ PyStr.quote q +:+ "%22" /\
  PyStr.all_chars encoded_char (PyStr.quote q) = true /\
  PyStr.all_chars
    (fun c => negb (Ascii.eqb c "&") && negb (Ascii.eqb c "=")
              && negb (Ascii.eqb c "#") && negb (Ascii.eqb c "?")
              && negb (Ascii.eqb c "/") && negb (Ascii.eqb c " ")
              && negb (Ascii.eqb c PyStr.dquote))
    (PyStr.quote q) = true.
Proof.
  split; [reflexivity|]. split; [|split].
  - unfold url, text_search_base.
    change (String PyStr.dquote q +:+ String PyStr.dquote EmptyString)
      with ((String PyStr.dquote EmptyString +:+ q)
              +:+ String PyStr.dquote EmptyString).
    rewrite !quote_append. reflexivity.
  - apply quote_encoded.
  - apply PyStrFacts.all_chars_weaken with (f := encoded_char).
    + exact encoded_char_plain.
    + apply quote_encoded.
Qed.

(** X6.  Within one tier the address tells the query: two different
    queries are never sent to the same address.  Across the two text
    tiers, the quoted search of a query is the plain search of that
    query put between double quotes, so the two requests of one query
    always differ. *)
Theorem url_identifies_query q1 q2 :
  (url (SearchQuoted q1) = url (SearchQuoted q2) -> q1 = q2) /\
  (url (SearchText q1) = url (SearchText q2) -> q1 = q2) /\
  (url (SearchAdvanced q1) = url (SearchAdvanced q2) -> q1 = q2) /\
  (url (SearchQuoted q1) = url (SearchText q2) <->
   q2 = String PyStr.dquote q1 +:+ String PyStr.dquote EmptyString) /\
  url (SearchQuoted q1) <> url (SearchText q1).
Proof.
  assert (Hcross : url (SearchQuoted q1) = url (SearchText q2) <->
            q2 = String PyStr.dquote q1 +:+ String PyStr.dquote EmptyString).
  { cbn [url]. split.
    - intros H. apply append_inv_head, quote_inj in H. now symmetry.
    - intros ->. reflexivity. }
  split; [|split; [|split; [|split]]]; cbn [url].
  - intros H. apply append_inv_head, quote_inj in H. cbn in H.
    injection H as H. now apply append_inv_tail in H.
  - intros H. now apply append_inv_head, quote_inj in H.
  - intros H. now apply append_inv_head, append_inv_tail, quote_inj in H.
  - exact Hcross.
  - intros H. apply append_inv_head, quote_inj in H.
    apply (f_equal String.length) in H. cbn in H.
    rewrite length_append in H. cbn in H. lia.
Qed.

Lemma url_identifies_query_witness :
  "One More Time"%string = "One More Time"%string.
Proof.
  apply (proj1 (proj2 (url_identifies_query "One More Time" "One More Time"))).
  reflexivity.
Defined.

(** ** The selector *)

Lemma pick_top_some l d :
  pick_top l = Some d ->
  In d l /\ (MIN_RATE <= doc_score d)%Q /\
  (forall d', In d' l -> (doc_score d' <= doc_score d)%Q).
Proof.
  destruct l as [|x l]; [discriminate|].
  destruct (sort_reverse_head doc_score x l)
    as (before & top & after & tl & Hsplit & Hb & Ha & Hsort).
  unfold pick_top. rewrite Hsort.
  destruct (Qle_bool MIN_RATE (doc_score top)) eqn:E; [|discriminate].
  intros [= <-]. apply Qle_bool_iff in E.
  rewrite Hsplit. repeat split.
  - apply in_or_app. right. now left.
  - exact E.
  - intros d' Hin. apply in_app_or in Hin. destruct Hin as [Hin|[<-|Hin]].
    + apply Qlt_le_weak. now apply Hb.
    + apply Qle_refl.
    + now apply Ha.
Qed.

Lemma pick_top_none l :
  pick_top l = None <-> (forall d, In d l -> (doc_score d < MIN_RATE)%Q).
Proof.
  destruct l as [|x l]; [split; [intros _ d [] | reflexivity]|].
  destruct (sort_reverse_head doc_score x l)
    as (before & top & after & tl & Hsplit & Hb & Ha & Hsort).
  unfold pick_top. rewrite Hsort.
  assert (Htop : In top (x :: l)).
  { rewrite Hsplit. apply in_or_app. right. now left. }
  destruct (Qle_bool MIN_RATE (doc_score top)) eqn:E.
  - apply Qle_bool_iff in E. split; [discriminate|].
    intros Hall. exfalso. apply (Qlt_not_le _ _ (Hall top Htop) E).
  - split; [|reflexivity]. intros _ d Hin.
    assert (Hlow : (doc_score top < MIN_RATE)%Q).
    { apply Qnot_le_lt. intros Hle. apply Qle_bool_iff in Hle. congruence. }
    apply Qle_lt_trans with (doc_score top); [|exact Hlow].
    rewrite Hsplit in Hin. apply in_app_or in Hin.
    destruct Hin as [Hin|[<-|Hin]].
    + apply Qlt_le_weak. now apply Hb.
    + apply Qle_refl.
    + now apply Ha.
Qed.

Section SelectionFacts.

Variable lower : string -> string.
Variable partial_ratio : string -> string -> Q.

Lemma best_map_returns track_name artist_name w hit w' :
  best_map lower partial_ratio track_name artist_name w = (Return hit, w') ->
  exists docs,
    beat_search track_name w = (Return docs, w') /\
    hit = pick_top (filter (keeps lower partial_ratio track_name artist_name)
                           docs).
Proof.
  destruct (beat_search track_name w) as [[docs|e] w1] eqn:Hsearch.
  - rewrite (best_map_picks lower partial_ratio _ artist_name _ _ _ Hsearch).
    rewrite filter_loop_filter. cbn [app].
    intros [= <- <-]. exists docs. auto.
  - rewrite (best_map_raises lower partial_ratio _ artist_name _ _ _ Hsearch).
    discriminate.
Qed.

Lemma keeps_iff track_name artist_name d :
  keeps lower partial_ratio track_name artist_name d = true <->
  lower (display_name d) = lower track_name /\
  artist_gate lower partial_ratio artist_name d = true.
Proof.
  unfold keeps. now rewrite andb_true_iff, title_matches_iff.
Qed.

End SelectionFacts.

(** X7.  The selected map: when [best_map] returns a doc, the search
    returned it, its display name equals the track once both are
    lower-cased, it passed the artist gate, its score is at least
    [MIN_RATE], and no doc of the search that passes the two tests has
    a higher score. *)
Theorem selected_map_is_best_match lower partial_ratio track_name artist_name
    w d w' :
  best_map lower partial_ratio track_name artist_name w
    = (Return (Some d), w') ->
  exists docs,
    beat_search track_name w = (Return docs, w') /\
    In d docs /\
    lower (display_name d) = lower track_name /\
    artist_gate lower partial_ratio artist_name d = true /\
    (MIN_RATE <= doc_score d)%Q /\
    (forall d',
        In d' docs ->
        lower (display_name d') = lower track_name ->
        artist_gate lower partial_ratio artist_name d' = true ->
        (doc_score d' <= doc_score d)%Q).
Proof.
  intros Hbest. apply best_map_returns in Hbest.
  destruct Hbest as (docs & Hsearch & Hpick).
  symmetry in Hpick. apply pick_top_some in Hpick.
  destruct Hpick as (Hin & Hrate & Hmax).
  apply filter_In in Hin. destruct Hin as [Hin Hkeeps].
  apply keeps_iff in Hkeeps. destruct Hkeeps as [Htitle Hgate].
  exists docs. repeat split; auto.
  intros d' Hin' Htitle' Hgate'. apply Hmax.
  apply filter_In. split; [exact Hin'|]. now apply keeps_iff.
Qed.

Lemma selected_map_is_best_match_witness :
  exists docs,
    beat_search "q" found_at_once
      = (Return docs, sent_more found_at_once [SearchQuoted "q"]) /\
    In (plain_doc "1a" "q" "x" 0.9) docs /\
    PyStr.ascii_lower (display_name (plain_doc "1a" "q" "x" 0.9))
      = PyStr.ascii_lower "q" /\
    (MIN_RATE <= doc_score (plain_doc "1a" "q" "x" 0.9))%Q.
Proof.
  destruct (selected_map_is_best_match PyStr.ascii_lower (fixed_ratio 100)
              "q" (Some "x"%string) found_at_once
              (plain_doc "1a" "q" "x" 0.9)
              (sent_more found_at_once [SearchQuoted "q"]))
    as (docs & Hs & Hin & Ht & _ & Hr & _).
  - reflexivity.
  - exists docs. auto.
Defined.

(** X8.  When the search returns docs, [best_map] returns none exactly
    when every doc that passes the title test and the artist gate has
    a score below [MIN_RATE]; in particular when no doc passes, or
    when the search returned no docs. *)
Theorem no_map_selected_iff lower partial_ratio track_name artist_name
    w docs w' :
  beat_search track_name w = (Return docs, w') ->
  (best_map lower partial_ratio track_name artist_name w = (Return None, w')
   <->
   (forall d,
       In d docs ->
       lower (display_name d) = lower track_name ->
       artist_gate lower partial_ratio artist_name d = true ->
       (doc_score d < MIN_RATE)%Q)).
Proof.
  intros Hsearch.
  rewrite (best_map_picks lower partial_ratio _ artist_name _ _ _ Hsearch).
  rewrite filter_loop_filter. cbn [app].
  split.
  - intros [= Hnone]. intros d Hin Htitle Hgate.
    apply (proj1 (pick_top_none _) Hnone).
    apply filter_In. split; [exact Hin|]. now apply keeps_iff.
  - intros Hall. f_equal. f_equal. apply pick_top_none.
    intros d Hin. apply filter_In in Hin. destruct Hin as [Hin Hkeeps].
    apply keeps_iff in Hkeeps. now apply Hall.
Qed.

Lemma no_map_selected_iff_witness :
  best_map PyStr.ascii_lower (fixed_ratio 100) "q" None
    (fresh [answer 200 [plain_doc "1a" "q" "x" 0.4]])
  = (Return None,
     sent_more (fresh [answer 200 [plain_doc "1a" "q" "x" 0.4]])
       [SearchQuoted "q"]).
Proof.
  apply (no_map_selected_iff PyStr.ascii_lower (fixed_ratio 100) "q" None
           (fresh [answer 200 [plain_doc "1a" "q" "x" 0.4]])
           [plain_doc "1a" "q" "x" 0.4]).
  - reflexivity.
  - intros d [<-|[]] _ _. reflexivity.
Defined.

(** X9.  A doc that has no [stats], or no [score] in them, counts as
    rated 0 and is never selected, whatever its title and author and
    whatever else the search returned. *)
Theorem unrated_doc_is_never_selected lower partial_ratio track_name
    artist_name w d w' :
  stats d = None \/ (exists st, stats d = Some st /\ score st = None) ->
  best_map lower partial_ratio track_name artist_name w
    <> (Return (Some d), w').
Proof.
  intros Hstats Hbest. apply best_map_returns in Hbest.
  destruct Hbest as (docs & _ & Hpick).
  symmetry in Hpick. apply pick_top_some in Hpick.
  destruct Hpick as (_ & Hrate & _).
  assert (Hzero : doc_score d = 0%Q).
  { unfold doc_score. destruct Hstats as [->|(st & -> & ->)]; reflexivity. }
  rewrite Hzero in Hrate. apply Qle_bool_iff in Hrate. discriminate Hrate.
Qed.

Lemma unrated_doc_is_never_selected_witness :
  best_map PyStr.ascii_lower (fixed_ratio 100) "q" None
    (fresh [answer 200 [unrated_doc "1a" "q" "x"]])
  <> (Return (Some (unrated_doc "1a" "q" "x")),
      sent_more (fresh [answer 200 [unrated_doc "1a" "q" "x"]])
        [SearchQuoted "q"]).
Proof.
  apply (unrated_doc_is_never_selected PyStr.ascii_lower (fixed_ratio 100)
           "q" None (fresh [answer 200 [unrated_doc "1a" "q" "x"]])
           (unrated_doc "1a" "q" "x")).
  left. reflexivity.
Defined.

(** X10.  Whether a map is selected, and with what score, does not
    depend on the order in which the candidates are listed: two lists
    with the same candidates give both none, or two maps of equal
    score.  Only the choice among equal scores depends on the order. *)
Theorem pick_top_score_ignores_order l l' :
  Permutation l l' ->
  match pick_top l, pick_top l' with
  | Some d, Some d' => (doc_score d == doc_score d')%Q
  | None, None => True
  | _, _ => False
  end.
Proof.
  intros Hperm.
  destruct (pick_top l) as [d|] eqn:Hl, (pick_top l') as [d'|] eqn:Hl'.
  - apply pick_top_some in Hl, Hl'.
    destruct Hl as (Hin & _ & Hmax), Hl' as (Hin' & _ & Hmax').
    apply Qle_antisym.
    + apply Hmax'. now apply (Permutation_in _ Hperm).
    + apply Hmax. now apply (Permutation_in _ (Permutation_sym Hperm)).
  - apply pick_top_some in Hl. destruct Hl as (Hin & Hrate & _).
    apply (Permutation_in _ Hperm) in Hin.
    apply (proj1 (pick_top_none _) Hl') in Hin.
    apply (Qlt_not_le _ _ Hin Hrate).
  - apply pick_top_some in Hl'. destruct Hl' as (Hin & Hrate & _).
    apply (Permutation_in _ (Permutation_sym Hperm)) in Hin.
    apply (proj1 (pick_top_none _) Hl) in Hin.
    apply (Qlt_not_le _ _ Hin Hrate).
  - exact I.
Qed.

Lemma pick_top_score_ignores_order_witness :
  match pick_top three_candidates, pick_top (rev three_candidates) with
  | Some d, Some d' => (doc_score d == doc_score d')%Q
  | None, None => True
  | _, _ => False
  end.
Proof.
  apply (pick_top_score_ignores_order three_candidates (rev three_candidates)).
  apply Permutation_rev.
Defined.

(** ** Download and extraction *)

Lemma path_eqb_eq p q : path_eqb p q = true <-> p = q.
Proof.
  revert q. induction p as [|a p IH]; intros [|b q]; simpl;
    try (split; [discriminate | discriminate]); [tauto|].
  rewrite andb_true_iff, String.eqb_eq, IH.
  split; [intros [-> ->]; reflexivity | intros [= -> ->]; auto].
Qed.

Lemma path_eqb_neq p q : p <> q -> path_eqb p q = false.
Proof.
  intros H. destruct (path_eqb p q) eqn:E; [|reflexivity].
  apply path_eqb_eq in E. contradiction.
Qed.

Lemma under_app dir p : under dir (dir ++ p) = true.
Proof.
  induction dir as [|a dir IH]; simpl; [reflexivity|].
  now rewrite String.eqb_refl.
Qed.

Lemma leads_refl a p : leads (a :: p) (a :: p) = true.
Proof.
  revert a. induction p as [|b p IH]; intros a; simpl.
  - apply String.eqb_refl.
  - rewrite String.eqb_refl. apply IH.
Qed.

Section DownloadFacts.

Variable zipfile : string -> Archive.

Lemma download_and_extract_no_answer bs_id artist track w :
  download_reply w bs_id = NoAnswer ->
  download_and_extract zipfile bs_id artist track w =
  (Raise RequestException, world_after w [DownloadKey bs_id] []).
Proof.
  unfold download_reply. intros Hreply.
  unfold download_and_extract, bind.
  rewrite requests_get_first, Hreply.
  unfold world_after, sent_more. now rewrite app_nil_r.
Qed.

Lemma download_and_extract_no_artist bs_id track w r :
  download_reply w bs_id = Answer r ->
  status_code r = 200%Z ->
  download_and_extract zipfile bs_id None track w =
  (Raise TypeError, world_after w [DownloadKey bs_id] []).
Proof.
  unfold download_reply. intros Hreply Hstatus.
  unfold download_and_extract, bind at 1.
  rewrite requests_get_first, Hreply, Hstatus. cbn [Z.eqb Pos.eqb negb].
  unfold raise_for_status. rewrite Hstatus.
  unfold bind, lift, raise, world_after, sent_more. cbn.
  now rewrite app_nil_r.
Qed.

End DownloadFacts.

(** X11.  A download that does not get as far as the archive writes
    nothing.  Without an answer it raises [RequestException]; with an
    answer of a status other than 200 it returns false; with a 200 but
    a track that has no artist it raises [TypeError].  In each case
    the one request is all that happened: the disk is as before. *)
Theorem download_without_archive_writes_nothing zipfile bs_id artist track w :
  (download_reply w bs_id = NoAnswer ->
   download_and_extract zipfile bs_id artist track w =
   (Raise RequestException, world_after w [DownloadKey bs_id] [])) /\
  (forall r,
      download_reply w bs_id = Answer r -> status_code r <> 200%Z ->
      download_and_extract zipfile bs_id artist track w =
      (Return false, world_after w [DownloadKey bs_id] [])) /\
  (forall r,
      download_reply w bs_id = Answer r -> status_code r = 200%Z ->
      artist = None ->
      download_and_extract zipfile bs_id artist track w =
      (Raise TypeError, world_after w [DownloadKey bs_id] [])) /\
  disk (world_after w [DownloadKey bs_id] []) = disk w.
Proof.
  split; [|split; [|split]].
  - apply download_and_extract_no_answer.
  - intros r. apply download_and_extract_not_200.
  - intros r Hreply Hstatus ->.
    now apply download_and_extract_no_artist with (r := r).
  - cbn. apply app_nil_r.
Qed.

Lemma download_without_archive_writes_nothing_witness :
  download_and_extract toy_zipfile "1a" (Some "AC/DC"%string) "T.N.T."
    (fresh [download 404 "gone"])
  = (Return false, world_after (fresh [download 404 "gone"])
                     [DownloadKey "1a"] []).
Proof.
  destruct (download_without_archive_writes_nothing toy_zipfile "1a"
              (Some "AC/DC"%string) "T.N.T." (fresh [download 404 "gone"]))
    as (_ & H & _).
  apply (H {| status_code := 404; json_body := NotJson; content := "gone" |}).
  - reflexivity.
  - discriminate.
Defined.

(** X12.  A download returns true only after the catalogue answered
    with status 200, for a track that has an artist, and when the
    archive was read without failure; its disk operations are then the
    directory, the archive file, every member of the archive and the
    removal of the archive file, in this order. *)
Theorem download_succeeds_only_with_sound_archive zipfile bs_id artist track w :
  fst (download_and_extract zipfile bs_id artist track w) = Return true ->
  exists r a,
    download_reply w bs_id = Answer r /\
    status_code r = 200%Z /\
    artist = Some a /\
    corrupt_at (zipfile (content r)) = None /\
    snd (download_and_extract zipfile bs_id artist track w) =
    world_after w [DownloadKey bs_id]
      (save_archive bs_id a track (content r) ++
       map (store_under (dest_dir a track)) (members (zipfile (content r))) ++
       [Remove (zip_path bs_id a track)]).
Proof.
  destruct (download_reply w bs_id) as [r|] eqn:Hreply.
  - destruct (Z.eq_dec (status_code r) 200) as [Hstatus|Hstatus].
    + destruct artist as [a|].
      * rewrite (download_and_extract_200 zipfile bs_id a track w r
                   Hreply Hstatus).
        destruct (corrupt_at (zipfile (content r))) as [k|] eqn:Hk;
          [discriminate|].
        intros _. exists r, a. auto.
      * rewrite (download_and_extract_no_artist zipfile bs_id track w r
                   Hreply Hstatus). discriminate.
    + rewrite (download_and_extract_not_200 zipfile bs_id artist track w r
                 Hreply Hstatus). discriminate.
  - rewrite (download_and_extract_no_answer zipfile bs_id artist track w
               Hreply). discriminate.
Qed.

Lemma download_succeeds_only_with_sound_archive_witness :
  exists r a,
    download_reply (fresh [download 200 "PK"]) "1a" = Answer r /\
    status_code r = 200%Z /\
    Some "AC/DC"%string = Some a /\
    corrupt_at (toy_zipfile (content r)) = None /\
    snd (download_and_extract toy_zipfile "1a" (Some "AC/DC"%string) "T.N.T."
           (fresh [download 200 "PK"])) =
    world_after (fresh [download 200 "PK"]) [DownloadKey "1a"]
      (save_archive "1a" a "T.N.T." (content r) ++
       map (store_under (dest_dir a "T.N.T."))
           (members (toy_zipfile (content r))) ++
       [Remove (zip_path "1a" a "T.N.T.")]).
Proof.
  apply (download_succeeds_only_with_sound_archive toy_zipfile "1a"
           (Some "AC/DC"%string) "T.N.T." (fresh [download 200 "PK"])).
  reflexivity.
Defined.

(** X13.  For a map id that is one path component (it holds no [/]),
    whatever a download puts on the disk or takes from it lies in its
    destination directory, which is [maps/<name>] for a name without
    separator: the directory itself, the archive file [<id>.zip] and
    the members as [zipfile] places them.  Nothing outside it is
    written or removed. *)
Theorem download_stays_in_destination zipfile bs_id a track w :
  single_component bs_id = true ->
  exists ops,
    disk (snd (download_and_extract zipfile bs_id (Some a) track w))
      = disk w ++ ops /\
    forallb (fun op => under (dest_dir a track) (op_path op)) ops = true /\
    dest_dir a track = ["maps"%string; dir_name a track] /\
    zip_path bs_id a track
      = ["maps"%string; dir_name a track; bs_id +:+ ".zip"] /\
    single_component (bs_id +:+ ".zip") = true.
Proof.
  intros Hid.
  assert (Hstores : forall ms,
    forallb (fun op => under (dest_dir a track) (op_path op))
      (map (store_under (dest_dir a track)) ms) = true).
  { induction ms as [|m ms IH]; [reflexivity|].
    cbn [map forallb store_under op_path]. now rewrite under_app, IH. }
  assert (Hsave : forall data,
    forallb (fun op => under (dest_dir a track) (op_path op))
      (save_archive bs_id a track data) = true).
  { intros data. unfold save_archive, zip_path.
    cbn [forallb op_path]. rewrite under_app.
    rewrite <- (app_nil_r (dest_dir a track)) at 2.
    now rewrite under_app. }
  assert (Hname : single_component (bs_id +:+ ".zip") = true).
  { unfold single_component in *.
    rewrite PyStrFacts.all_chars_append, Hid. reflexivity. }
  destruct (download_reply w bs_id) as [r|] eqn:Hreply.
  - destruct (Z.eq_dec (status_code r) 200) as [Hstatus|Hstatus].
    + rewrite (download_and_extract_200 zipfile bs_id a track w r
                 Hreply Hstatus).
      assert (Hzip : under (dest_dir a track) (zip_path bs_id a track) = true)
        by apply under_app.
      destruct (corrupt_at (zipfile (content r))) as [k|];
        eexists; (split; [reflexivity|]);
        (split; [|split; [reflexivity | split; [reflexivity | exact Hname]]]);
        rewrite ?forallb_app, Hsave, ?Hstores; cbn [forallb op_path];
        rewrite ?Hzip; reflexivity.
    + rewrite (download_and_extract_not_200 zipfile bs_id _ track w r
                 Hreply Hstatus).
      exists []. cbn. rewrite app_nil_r. auto.
  - rewrite (download_and_extract_no_answer zipfile bs_id _ track w Hreply).
    exists []. cbn. rewrite app_nil_r. auto.
Qed.

Lemma download_stays_in_destination_witness :
  exists ops,
    disk (snd (download_and_extract toy_zipfile "1a" (Some "AC/DC"%string)
                 "T.N.T." (fresh [download 200 "PK"])))
      = disk (fresh [download 200 "PK"]) ++ ops /\
    forallb (fun op => under (dest_dir "AC/DC" "T.N.T.") (op_path op)) ops
      = true.
Proof.
  destruct (download_stays_in_destination toy_zipfile "1a" "AC/DC" "T.N.T."
              (fresh [download 200 "PK"])) as (ops & Hdisk & Hops & _).
  - reflexivity.
  - exists ops. auto.
Defined.


Lemma path_eqb_length x p :
  List.length x <> List.length p -> path_eqb x p = false.
Proof. intros H. apply path_eqb_neq. intros ->. now apply H. Qed.

(** What an operation that avoids [x] leaves as it is: a directory at
    [x], and the absence of a file at [x]. *)
Lemma fs_step_avoids fs op x :
  avoids x op = true ->
  (fs x = Some Dir -> fs_step fs op x = Some Dir) /\
  ((forall data, fs x <> Some (File data)) ->
   forall data, fs_step fs op x <> Some (File data)).
Proof.
  intros Hop. destruct op as [p|p content|p]; cbn [avoids fs_step] in *.
  - destruct (leads x p).
    + split.
      * intros ->. reflexivity.
      * intros Hfile data. destruct (fs x) as [n|] eqn:E; [|discriminate].
        rewrite <- E. intros H. apply (Hfile data). congruence.
    + auto.
  - apply negb_true_iff in Hop. rewrite Hop. auto.
  - apply negb_true_iff in Hop. rewrite Hop. auto.
Qed.

Lemma fs_read_avoided ops more x :
  forallb (avoids x) more = true ->
  (fs_read ops x = Some Dir -> fs_read (ops ++ more) x = Some Dir) /\
  ((forall data, fs_read ops x <> Some (File data)) ->
   forall data, fs_read (ops ++ more) x <> Some (File data)).
Proof.
  revert ops. induction more as [|op more IH]; intros ops Hmore.
  - rewrite app_nil_r. auto.
  - simpl in Hmore. apply andb_true_iff in Hmore. destruct Hmore as [Hop Hmore].
    change (op :: more) with ([op] ++ more). rewrite app_assoc.
    destruct (IH (ops ++ [op]) Hmore) as [Hdir Hfile].
    rewrite fs_read_snoc in Hdir, Hfile.
    destruct (fs_step_avoids (fs_read ops) op x Hop) as [Hdir1 Hfile1].
    split; auto.
Qed.

(** Members with a name are stored below the directory, not in its
    place. *)
Lemma stores_avoid dest ms x :
  (forall m, In m ms -> fst m <> []) ->
  List.length x = List.length dest ->
  forallb (avoids x) (map (store_under dest) ms) = true.
Proof.
  intros Hnamed Hlen. apply forallb_forall. intros op Hop.
  apply in_map_iff in Hop. destruct Hop as (m & <- & Hm).
  cbn [store_under avoids]. apply negb_true_iff, path_eqb_length.
  rewrite length_app, Hlen.
  specialize (Hnamed m Hm).
  destruct (fst m) eqn:E; [exfalso; exact (Hnamed E) | simpl; lia].
Qed.

Section DownloadDiskFacts.

Variable zipfile : string -> Archive.

(** Every member that [zipfile] extracts has a name. *)
Hypothesis members_named :
  forall data m, In m (members (zipfile data)) -> fst m <> [].

(** A download leaves the directories of the output root in place. *)
Lemma download_avoids bs_id artist_name track_name w x :
  List.length x = 2 ->
  exists ops,
    disk (snd (download_and_extract zipfile bs_id artist_name track_name w))
      = disk w ++ ops /\
    forallb (avoids x) ops = true.
Proof.
  intros Hx.
  destruct (download_reply w bs_id) as [r|] eqn:Hreply.
  - destruct (Z.eq_dec (status_code r) 200) as [Hstatus|Hstatus].
    + destruct artist_name as [a|].
      * assert (Hzip : path_eqb x (zip_path bs_id a track_name) = false).
        { apply path_eqb_length. rewrite Hx. unfold zip_path, dest_dir.
          discriminate. }
        rewrite (download_and_extract_200 zipfile bs_id a track_name w r
                   Hreply Hstatus).
        destruct (corrupt_at (zipfile (content r))) as [k|];
          eexists; (split; [reflexivity|]);
          unfold save_archive; cbn [app forallb avoids];
          rewrite ?forallb_app; cbn [forallb avoids]; rewrite Hzip;
          rewrite stores_avoid; auto; intros m Hm;
          try apply in_firstn in Hm; eapply members_named; eauto.
      * rewrite (download_and_extract_no_artist zipfile bs_id track_name w r
                   Hreply Hstatus).
        exists []. cbn. now rewrite app_nil_r.
    + rewrite (download_and_extract_not_200 zipfile bs_id artist_name
                 track_name w r Hreply Hstatus).
      exists []. cbn. now rewrite app_nil_r.
  - rewrite (download_and_extract_no_answer zipfile bs_id artist_name
               track_name w Hreply).
    exists []. cbn. now rewrite app_nil_r.
Qed.

(** After a download that returns true, its destination is a
    directory, unless a file lay in its place before. *)
Lemma download_true_makes_dir bs_id a track_name w :
  fst (download_and_extract zipfile bs_id (Some a) track_name w)
    = Return true ->
  (forall data, fs_read (disk w) (dest_dir a track_name) <> Some (File data)) ->
  fs_read (disk (snd (download_and_extract zipfile bs_id (Some a)
                        track_name w)))
    (dest_dir a track_name) = Some Dir.
Proof.
  intros Hok Hfile.
  destruct (download_reply w bs_id) as [r|] eqn:Hreply.
  - destruct (Z.eq_dec (status_code r) 200) as [Hstatus|Hstatus].
    + rewrite (download_and_extract_200 zipfile bs_id a track_name w r
                 Hreply Hstatus) in *.
      destruct (corrupt_at (zipfile (content r))) as [k|]; [discriminate Hok|].
      cbn [snd disk world_after]. unfold save_archive.
      change (disk w ++
              [MkDir (dest_dir a track_name);
               Store (zip_path bs_id a track_name) (content r)] ++
              map (store_under (dest_dir a track_name))
                (members (zipfile (content r))) ++
              [Remove (zip_path bs_id a track_name)])
        with (disk w ++ [MkDir (dest_dir a track_name)] ++
              ([Store (zip_path bs_id a track_name) (content r)] ++
               map (store_under (dest_dir a track_name))
                 (members (zipfile (content r))) ++
               [Remove (zip_path bs_id a track_name)])).
      rewrite app_assoc.
      assert (Hzip : path_eqb (dest_dir a track_name)
                       (zip_path bs_id a track_name) = false).
      { apply path_eqb_length. unfold zip_path, dest_dir. discriminate. }
      apply fs_read_avoided.
      * rewrite !forallb_app. cbn [forallb avoids]. rewrite Hzip.
        rewrite stores_avoid; auto. apply members_named.
      * rewrite fs_read_snoc. cbn [fs_step]. unfold dest_dir at 1 2.
        rewrite leads_refl. fold (dest_dir a track_name).
        destruct (fs_read (disk w) (dest_dir a track_name)) as [[|data]|] eqn:E;
          try reflexivity.
        exfalso. now apply (Hfile data).
    + rewrite (download_and_extract_not_200 zipfile bs_id _ track_name w r
                 Hreply Hstatus) in Hok. discriminate Hok.
  - rewrite (download_and_extract_no_answer zipfile bs_id _ track_name w
               Hreply) in Hok. discriminate Hok.
Qed.

End DownloadDiskFacts.



(** ** The driver *)

Lemma bind_ret {A} (m : Prog A) w : bind m (fun a => ret a) w = m w.
Proof. unfold bind, ret. destruct (m w) as [[a|e] w']; reflexivity. Qed.

Lemma beat_search_requests q w :
  exists rest,
    sent (snd (beat_search q w)) = sent w ++ SearchQuoted q :: rest /\
    List.length rest <= 8 /\
    Forall (fun req => In req (tiers q)) rest /\
    server (snd (beat_search q w)) = server w /\
    disk (snd (beat_search q w)) = disk w.
Proof.
  unfold beat_search.
  destruct (retrying_requests q 3 w)
    as (new & Hsent & Hlen & Hall & Hserver & Hdisk).
  destruct (retrying_asks_quoted_first q 2 w) as [rest Hrest].
  rewrite Hsent in Hrest. apply app_inv_head in Hrest. subst new.
  exists rest. rewrite Hsent.
  inversion Hall; subst. simpl in Hlen.
  repeat split; auto. lia.
Qed.

Section AttemptFacts.

Variable lower : string -> string.
Variable partial_ratio : string -> string -> Q.
Variable zipfile : string -> Archive.

Local Abbreviation run_best_map := (best_map lower partial_ratio).
Local Abbreviation run_download := (download_and_extract zipfile).
Local Abbreviation run_attempt := (attempt lower partial_ratio zipfile).
Local Abbreviation run_loop := (main_loop lower partial_ratio zipfile).
Local Abbreviation run_main := (main lower partial_ratio zipfile).
Local Abbreviation run_outcomes := (outcomes lower partial_ratio zipfile).
Local Abbreviation run_succeeds := (succeeds lower partial_ratio zipfile).

Lemma best_map_world track_name artist_name w :
  snd (run_best_map track_name artist_name w) = snd (beat_search track_name w).
Proof.
  destruct (beat_search track_name w) as [[docs|e] w1] eqn:Hsearch.
  - now rewrite (best_map_picks lower partial_ratio _ artist_name _ _ _ Hsearch).
  - now rewrite (best_map_raises lower partial_ratio _ artist_name _ _ _ Hsearch).
Qed.

(** The chain of a track is the selector, then, for a selected map,
    the download. *)
Lemma attempt_cases t w :
  run_attempt t w =
  match run_best_map (track t) (artist t) w with
  | (Return (Some d), w1) => run_download (id d) (artist t) (track t) w1
  | (Return None, w1) => (Return false, w1)
  | (Raise e, w1) => (Raise e, w1)
  end.
Proof.
  unfold attempt, bind at 1.
  destruct (best_map lower partial_ratio (track t) (artist t) w)
    as [[[d|]|e] w1]; try reflexivity.
  apply bind_ret.
Qed.

(** What a download does to the world. *)
Lemma download_world bs_id artist_name track_name w :
  exists ops,
    snd (run_download bs_id artist_name track_name w)
      = world_after w [DownloadKey bs_id] ops /\
    forallb spares_directories ops = true /\
    (artist_name = None -> ops = []).
Proof.
  assert (Hstores : forall dest ms,
    forallb spares_directories (map (store_under dest) ms) = true).
  { induction ms as [|m ms IH]; [reflexivity | exact IH]. }
  destruct (download_reply w bs_id) as [r|] eqn:Hreply.
  - destruct (Z.eq_dec (status_code r) 200) as [Hstatus|Hstatus].
    + destruct artist_name as [a|].
      * rewrite (download_and_extract_200 zipfile bs_id a track_name w r
                   Hreply Hstatus).
        destruct (corrupt_at (zipfile (content r))) as [k|];
          eexists; (split; [reflexivity|]); (split; [|discriminate]);
          unfold save_archive; cbn [app forallb];
          rewrite ?forallb_app, Hstores; reflexivity.
      * rewrite (download_and_extract_no_artist zipfile bs_id track_name w r
                   Hreply Hstatus).
        exists []. auto.
    + rewrite (download_and_extract_not_200 zipfile bs_id artist_name
                 track_name w r Hreply Hstatus).
      exists []. auto.
  - rewrite (download_and_extract_no_answer zipfile bs_id artist_name
               track_name w Hreply).
    exists []. auto.
Qed.

(** What the chain of a track does to the world: the quoted request
    first, at most nine further requests, and disk operations that
    take no directory away. *)
Lemma attempt_world t w :
  exists reqs ops,
    sent (snd (run_attempt t w)) = sent w ++ SearchQuoted (track t) :: reqs /\
    List.length reqs <= 9 /\
    disk (snd (run_attempt t w)) = disk w ++ ops /\
    forallb spares_directories ops = true /\
    (artist t = None -> ops = []).
Proof.
  rewrite attempt_cases.
  pose proof (best_map_world (track t) (artist t) w) as Hworld.
  destruct (beat_search_requests (track t) w)
    as (rest & Hsent & Hlen & _ & _ & Hdisk).
  rewrite <- Hworld in Hsent, Hdisk.
  destruct (run_best_map (track t) (artist t) w) as [[[d|]|e] w1];
    cbn [snd] in *.
  - destruct (download_world (id d) (artist t) (track t) w1)
      as (ops & Hdl & Hops & Hnone).
    rewrite Hdl. cbn [sent disk world_after].
    exists (rest ++ [DownloadKey (id d)]), ops.
    rewrite Hsent, Hdisk, <- app_assoc. cbn [app].
    repeat split; auto. rewrite length_app. simpl. lia.
  - exists rest, []. rewrite app_nil_r. repeat split; auto; lia.
  - exists rest, []. rewrite app_nil_r. repeat split; auto; lia.
Qed.

Lemma main_loop_world_independent tracks acc acc' w :
  snd (run_loop tracks acc w) = snd (run_loop tracks acc' w).
Proof.
  revert acc acc' w. induction tracks as [|t rest IH]; intros acc acc' w.
  - reflexivity.
  - cbn [main_loop]. rewrite !turn_spec. apply IH.
Qed.

Lemma main_loop_step t rest acc w :
  run_loop (t :: rest) acc w =
  run_loop rest
    (if run_succeeds t w then (fst acc ++ [label t], snd acc)
     else (fst acc, snd acc ++ [label t]))
    (snd (run_attempt t w)).
Proof. cbn [main_loop]. now rewrite turn_spec. Qed.

(** What a whole run does to the world. *)
Lemma main_loop_world tracks acc w :
  exists reqs ops,
    sent (snd (run_loop tracks acc w)) = sent w ++ reqs /\
    List.length tracks <= List.length reqs <= 10 * List.length tracks /\
    (forall t, In t tracks -> In (SearchQuoted (track t)) reqs) /\
    disk (snd (run_loop tracks acc w)) = disk w ++ ops /\
    forallb spares_directories ops = true /\
    (Forall (fun t => artist t = None) tracks -> ops = []).
Proof.
  revert acc w. induction tracks as [|t rest IH]; intros acc w.
  - exists [], []. cbn. rewrite !app_nil_r. repeat split; auto.
  - rewrite main_loop_step.
    destruct (attempt_world t w) as (reqs1 & ops1 & Hs1 & Hl1 & Hd1 & Ho1 & Hn1).
    destruct (IH (if run_succeeds t w then (fst acc ++ [label t], snd acc)
                  else (fst acc, snd acc ++ [label t]))
                 (snd (run_attempt t w)))
      as (reqs2 & ops2 & Hs2 & Hl2 & Hin2 & Hd2 & Ho2 & Hn2).
    exists ((SearchQuoted (track t) :: reqs1) ++ reqs2), (ops1 ++ ops2).
    rewrite Hs2, Hd2, Hs1, Hd1, <- !app_assoc.
    repeat split; auto.
    + rewrite length_app. cbn [List.length]. lia.
    + rewrite length_app. cbn [List.length]. lia.
    + intros t' [<-|Hin]; apply in_or_app.
      * left. now left.
      * right. now apply Hin2.
    + rewrite forallb_app, Ho1, Ho2. reflexivity.
    + intros Hall. inversion Hall; subst.
      rewrite Hn1, Hn2; auto.
Qed.

End AttemptFacts.

Section RunFacts.

Variable lower : string -> string.
Variable partial_ratio : string -> string -> Q.
Variable zipfile : string -> Archive.

Local Abbreviation run_download := (download_and_extract zipfile).
Local Abbreviation run_attempt := (attempt lower partial_ratio zipfile).
Local Abbreviation run_loop := (main_loop lower partial_ratio zipfile).
Local Abbreviation run_main := (main lower partial_ratio zipfile).
Local Abbreviation run_outcomes := (outcomes lower partial_ratio zipfile).
Local Abbreviation run_succeeds := (succeeds lower partial_ratio zipfile).

Lemma download_no_artist_fails bs_id track_name w :
  fst (run_download bs_id None track_name w) <> Return true.
Proof.
  destruct (download_reply w bs_id) as [r|] eqn:Hreply.
  - destruct (Z.eq_dec (status_code r) 200) as [Hstatus|Hstatus].
    + rewrite (download_and_extract_no_artist zipfile bs_id track_name w r
                 Hreply Hstatus). discriminate.
    + rewrite (download_and_extract_not_200 zipfile bs_id None track_name w r
                 Hreply Hstatus). discriminate.
  - rewrite (download_and_extract_no_answer zipfile bs_id None track_name w
               Hreply). discriminate.
Qed.

Lemma succeeds_true t w :
  run_succeeds t w = true <-> fst (run_attempt t w) = Return true.
Proof.
  unfold succeeds.
  destruct (fst (attempt lower partial_ratio zipfile t w)) as [[|]|e];
    split; congruence.
Qed.

Lemma succeeds_needs_artist t w :
  artist t = None -> run_succeeds t w = false.
Proof.
  intros Hartist. destruct (run_succeeds t w) eqn:E; [|reflexivity].
  apply succeeds_true in E. rewrite attempt_cases, Hartist in E.
  destruct (best_map lower partial_ratio (track t) None w) as [[[d|]|e] w1];
    try discriminate E.
  exfalso. now apply (download_no_artist_fails (id d) (track t) w1).
Qed.

Lemma succeeds_has_artist t w :
  run_succeeds t w = true -> exists a, artist t = Some a.
Proof.
  intros Hok. destruct (artist t) as [a|] eqn:Hartist; [now exists a|].
  rewrite succeeds_needs_artist in Hok by exact Hartist. discriminate.
Qed.

Lemma main_loop_app l1 l2 acc w :
  run_loop (l1 ++ l2) acc w =
  run_loop l2 (fst (run_loop l1 acc w)) (snd (run_loop l1 acc w)).
Proof.
  revert acc w. induction l1 as [|t l1 IH]; intros acc w.
  - reflexivity.
  - cbn [app]. rewrite !main_loop_step. apply IH.
Qed.

Lemma outcomes_without_artist tracks w :
  Forall (fun t => artist t = None) tracks ->
  run_outcomes tracks w = map (fun t => (t, false)) tracks.
Proof.
  intros Hall. revert w. induction Hall as [|t rest Ht _ IH]; intros w.
  - reflexivity.
  - cbn [outcomes map]. rewrite succeeds_needs_artist by exact Ht.
    now rewrite IH.
Qed.

End RunFacts.

(** X15.  A track without artist is never downloaded.  A list of such
    tracks ends up whole in the not-found list, each under the label
    [None - <track>], and nothing is written to the disk, whatever the
    catalogue answers. *)
Theorem tracks_without_artist_are_not_found lower partial_ratio zipfile
    tracks w :
  Forall (fun t => artist t = None) tracks ->
  fst (main lower partial_ratio zipfile tracks w)
    = ([], map (fun t => "None - " +:+ track t) tracks) /\
  disk (snd (main lower partial_ratio zipfile tracks w)) = disk w.
Proof.
  intros Hall. split.
  - unfold main. rewrite main_loop_outcomes. cbn [fst snd app].
    rewrite (outcomes_without_artist lower partial_ratio zipfile tracks w Hall).
    unfold labels_of. f_equal.
    + induction tracks as [|t rest IH]; [reflexivity|].
      inversion Hall; subst. cbn. now apply IH.
    + induction Hall as [|t rest Ht _ IH]; [reflexivity|].
      cbn. rewrite IH. unfold label. now rewrite Ht.
  - unfold main.
    destruct (main_loop_world lower partial_ratio zipfile tracks ([], []) w)
      as (reqs & ops & _ & _ & _ & Hdisk & _ & Hnone).
    rewrite Hdisk, (Hnone Hall). apply app_nil_r.
Qed.

Lemma tracks_without_artist_are_not_found_witness :
  fst (main PyStr.ascii_lower (fixed_ratio 100) toy_zipfile
         [track_without_artist "One More Time"]
         (fresh [answer 200 [plain_doc "abcd" "One More Time" "Daft Punk" 0.8];
                 download 200 "PK"]))
  = ([], ["None - One More Time"%string]).
Proof.
  apply (tracks_without_artist_are_not_found PyStr.ascii_lower
           (fixed_ratio 100) toy_zipfile
           [track_without_artist "One More Time"]).
  repeat constructor.
Defined.

(** X16.  A run over a list in two parts is the run over the first
    part followed by the run over the second part in the world the
    first one left: each report is the report of the first run
    followed by that of the second, and the final world is that of the
    second run. *)
Theorem main_of_two_parts lower partial_ratio zipfile l1 l2 w :
  fst (main lower partial_ratio zipfile (l1 ++ l2) w)
  = (fst (fst (main lower partial_ratio zipfile l1 w)) ++
     fst (fst (main lower partial_ratio zipfile l2
                 (snd (main lower partial_ratio zipfile l1 w)))),
     snd (fst (main lower partial_ratio zipfile l1 w)) ++
     snd (fst (main lower partial_ratio zipfile l2
                 (snd (main lower partial_ratio zipfile l1 w))))) /\
  snd (main lower partial_ratio zipfile (l1 ++ l2) w)
  = snd (main lower partial_ratio zipfile l2
           (snd (main lower partial_ratio zipfile l1 w))).
Proof.
  unfold main. rewrite main_loop_app. split.
  - rewrite !main_loop_outcomes. reflexivity.
  - apply main_loop_world_independent.
Qed.

(** X17.  A run over [n] tracks sends at least [n] and at most [10 n]
    requests (per track up to nine of the search and one download),
    and the quoted search of every track is among them. *)
Theorem run_sends_bounded_requests lower partial_ratio zipfile tracks w :
  exists reqs,
    sent (snd (main lower partial_ratio zipfile tracks w)) = sent w ++ reqs /\
    List.length tracks <= List.length reqs <= 10 * List.length tracks /\
    (forall t, In t tracks -> In (SearchQuoted (track t)) reqs).
Proof.
  unfold main.
  destruct (main_loop_world lower partial_ratio zipfile tracks ([], []) w)
    as (reqs & ops & Hsent & Hlen & Hin & _).
  exists reqs. auto.
Qed.

Section RunDiskFacts.

Variable lower : string -> string.
Variable partial_ratio : string -> string -> Q.
Variable zipfile : string -> Archive.

(** Every member that [zipfile] extracts has a name. *)
Hypothesis members_named :
  forall data m, In m (members (zipfile data)) -> fst m <> [].

Local Abbreviation run_attempt := (attempt lower partial_ratio zipfile).
Local Abbreviation run_loop := (main_loop lower partial_ratio zipfile).
Local Abbreviation run_succeeds := (succeeds lower partial_ratio zipfile).

Lemma attempt_avoids t w x :
  List.length x = 2 ->
  exists ops,
    disk (snd (run_attempt t w)) = disk w ++ ops /\
    forallb (avoids x) ops = true.
Proof.
  intros Hx. rewrite attempt_cases.
  pose proof (best_map_world lower partial_ratio (track t) (artist t) w)
    as Hworld.
  destruct (beat_search_requests (track t) w) as (rest & _ & _ & _ & _ & Hdisk).
  rewrite <- Hworld in Hdisk.
  destruct (best_map lower partial_ratio (track t) (artist t) w)
    as [[[d|]|e] w1]; cbn [snd] in *.
  - destruct (download_avoids zipfile members_named (id d) (artist t)
                (track t) w1 x Hx) as (ops & Hdl & Hops).
    exists ops. now rewrite Hdl, Hdisk.
  - exists []. now rewrite app_nil_r.
  - exists []. now rewrite app_nil_r.
Qed.

Lemma main_loop_avoids tracks acc w x :
  List.length x = 2 ->
  exists ops,
    disk (snd (run_loop tracks acc w)) = disk w ++ ops /\
    forallb (avoids x) ops = true.
Proof.
  intros Hx. revert acc w. induction tracks as [|t rest IH]; intros acc w.
  - exists []. cbn. now rewrite app_nil_r.
  - rewrite main_loop_step.
    destruct (attempt_avoids t w x Hx) as (ops1 & Hd1 & Ho1).
    destruct (IH (if run_succeeds t w then (fst acc ++ [label t], snd acc)
                  else (fst acc, snd acc ++ [label t]))
                 (snd (run_attempt t w))) as (ops2 & Hd2 & Ho2).
    exists (ops1 ++ ops2). rewrite Hd2, Hd1, <- app_assoc.
    split; [reflexivity|]. now rewrite forallb_app, Ho1, Ho2.
Qed.

(** The chain of a track that ends with a download leaves the
    destination as a directory, unless a file lay in its place. *)
Lemma succeeds_makes_dir t w a :
  run_succeeds t w = true ->
  artist t = Some a ->
  (forall data,
      fs_read (disk w) (dest_dir a (track t)) <> Some (File data)) ->
  fs_read (disk (snd (run_attempt t w))) (dest_dir a (track t)) = Some Dir.
Proof.
  intros Hok Hartist Hfile.
  apply succeeds_true in Hok. rewrite attempt_cases, Hartist in *.
  pose proof (best_map_world lower partial_ratio (track t) (Some a) w)
    as Hworld.
  destruct (beat_search_requests (track t) w) as (rest & _ & _ & _ & _ & Hdisk).
  rewrite <- Hworld in Hdisk.
  destruct (best_map lower partial_ratio (track t) (Some a) w)
    as [[[d|]|e] w1]; try discriminate Hok.
  cbn [snd] in Hdisk.
  apply (download_true_makes_dir zipfile members_named); [exact Hok|].
  now rewrite Hdisk.
Qed.

End RunDiskFacts.

(** X18.  The report agrees with the disk: every track that the run
    puts on the downloaded list has an artist, and its destination is
    a directory on the disk when the run ends, whatever the later
    tracks did; this for archives whose members have names, and when
    no file lay in the place of the directory before the run. *)
Theorem downloaded_tracks_have_directories lower partial_ratio zipfile
    tracks w t :
  (forall data m, In m (members (zipfile data)) -> fst m <> []) ->
  In (t, true) (outcomes lower partial_ratio zipfile tracks w) ->
  (forall a data,
      artist t = Some a ->
      fs_read (disk w) (dest_dir a (track t)) <> Some (File data)) ->
  exists a,
    artist t = Some a /\
    fs_read (disk (snd (main lower partial_ratio zipfile tracks w)))
      (dest_dir a (track t)) = Some Dir.
Proof.
  intros Hnamed. unfold main. generalize (@nil string, @nil string) as acc.
  revert w. induction tracks as [|t0 rest IH]; intros w acc Hin Hfile;
    [destruct Hin|].
  rewrite main_loop_step.
  cbn [outcomes] in Hin. destruct Hin as [Hhead|Htail].
  - injection Hhead as -> Hok.
    destruct (succeeds_has_artist lower partial_ratio zipfile t w Hok)
      as [a Hartist].
    exists a. split; [exact Hartist|].
    pose proof (succeeds_makes_dir lower partial_ratio zipfile Hnamed t w a
                  Hok Hartist (fun data => Hfile a data Hartist)) as Hdir.
    destruct (main_loop_avoids lower partial_ratio zipfile Hnamed rest
                (if succeeds lower partial_ratio zipfile t w
                 then (fst acc ++ [label t], snd acc)
                 else (fst acc, snd acc ++ [label t]))
                (snd (attempt lower partial_ratio zipfile t w))
                (dest_dir a (track t)) eq_refl)
      as (ops & Hdisk & Hops).
    rewrite Hdisk. now apply (fs_read_avoided _ _ _ Hops).
  - apply IH; [exact Htail|].
    intros a data Hartist.
    destruct (attempt_avoids lower partial_ratio zipfile Hnamed t0 w
                (dest_dir a (track t)) eq_refl) as (ops & Hdisk & Hops).
    rewrite Hdisk. apply (fs_read_avoided _ _ _ Hops).
    intros data'. now apply Hfile.
Qed.

Lemma downloaded_tracks_have_directories_witness :
  exists a,
    artist acdc = Some a /\
    fs_read
      (disk (snd (main PyStr.ascii_lower (fixed_ratio 100) toy_zipfile
                    [daft_punk; acdc] one_corrupt_archive)))
      (dest_dir a (track acdc)) = Some Dir.
Proof.
  apply (downloaded_tracks_have_directories PyStr.ascii_lower
           (fixed_ratio 100) toy_zipfile [daft_punk; acdc]
           one_corrupt_archive acdc).
  - intros data m [<-|[<-|[]]]; discriminate.
  - right. left. reflexivity.
  - intros a data _. discriminate.
Defined.

(** ** The reports *)

Lemma leads_head a x b p : leads (a :: x) (b :: p) = true -> a = b.
Proof.
  simpl. destruct x as [|c x].
  - apply String.eqb_eq.
  - intros H. apply andb_true_iff in H. now apply String.eqb_eq.
Qed.

(** Operations inside the output root change nothing outside it. *)
Lemma fs_step_outside_root fs op a x :
  in_output_root op = true -> a <> OUT_DIR ->
  fs_step fs op (a :: x) = fs (a :: x).
Proof.
  unfold in_output_root. intros Hop Ha.
  assert (Hp : exists p, op_path op = OUT_DIR :: p).
  { destruct (op_path op) as [|b p]; [discriminate|].
    cbn [under] in Hop. rewrite andb_true_r in Hop.
    apply String.eqb_eq in Hop. subst b. now exists p. }
  destruct Hp as [p Hp].
  destruct op as [q|q data|q]; cbn [op_path] in Hp; subst q; cbn [fs_step].
  - destruct (leads (a :: x) (OUT_DIR :: p)) eqn:E; [|reflexivity].
    apply leads_head in E. contradiction.
  - rewrite path_eqb_neq; [reflexivity | congruence].
  - rewrite path_eqb_neq; [reflexivity | congruence].
Qed.

Lemma fs_read_outside_root ops more a x :
  forallb in_output_root more = true -> a <> OUT_DIR ->
  fs_read (ops ++ more) (a :: x) = fs_read ops (a :: x).
Proof.
  intros Hmore Ha. revert ops Hmore.
  induction more as [|op more IH]; intros ops Hmore.
  - now rewrite app_nil_r.
  - simpl in Hmore. apply andb_true_iff in Hmore. destruct Hmore as [Hop Hmore].
    change (op :: more) with ([op] ++ more). rewrite app_assoc.
    rewrite IH by exact Hmore.
    rewrite fs_read_snoc. now apply fs_step_outside_root.
Qed.

Section ReportFacts.

Variable lower : string -> string.
Variable partial_ratio : string -> string -> Q.
Variable zipfile : string -> Archive.

Local Abbreviation run_download := (download_and_extract zipfile).
Local Abbreviation run_attempt := (attempt lower partial_ratio zipfile).
Local Abbreviation run_loop := (main_loop lower partial_ratio zipfile).

Lemma download_in_root bs_id artist_name track_name w :
  exists ops,
    disk (snd (run_download bs_id artist_name track_name w)) = disk w ++ ops /\
    forallb in_output_root ops = true.
Proof.
  destruct (download_reply w bs_id) as [r|] eqn:Hreply.
  - destruct (Z.eq_dec (status_code r) 200) as [Hstatus|Hstatus].
    + destruct artist_name as [a|].
      * assert (Hstores : forall ms,
          forallb in_output_root
            (map (store_under (dest_dir a track_name)) ms) = true).
        { induction ms as [|m ms IH]; [reflexivity|].
          cbn [map forallb]. rewrite IH, andb_true_r.
          unfold in_output_root, store_under, dest_dir. cbn [op_path app under].
          now rewrite String.eqb_refl. }
        assert (Hsave : forall data,
          forallb in_output_root (save_archive bs_id a track_name data) = true).
        { intros data. unfold save_archive, in_output_root, zip_path, dest_dir.
          cbn. rewrite ?String.eqb_refl. reflexivity. }
        assert (Hzip : in_output_root (Remove (zip_path bs_id a track_name))
                       = true).
        { unfold in_output_root, zip_path, dest_dir. cbn.
          rewrite ?String.eqb_refl. reflexivity. }
        rewrite (download_and_extract_200 zipfile bs_id a track_name w r
                   Hreply Hstatus).
        destruct (corrupt_at (zipfile (content r))) as [k|];
          eexists; (split; [reflexivity|]);
          rewrite ?forallb_app, Hsave, ?Hstores; cbn [forallb];
          rewrite ?Hzip; reflexivity.
      * rewrite (download_and_extract_no_artist zipfile bs_id track_name w r
                   Hreply Hstatus).
        exists []. auto.
    + rewrite (download_and_extract_not_200 zipfile bs_id artist_name
                 track_name w r Hreply Hstatus).
      exists []. auto.
  - rewrite (download_and_extract_no_answer zipfile bs_id artist_name
               track_name w Hreply).
    exists []. auto.
Qed.

Lemma attempt_in_root t w :
  exists ops,
    disk (snd (run_attempt t w)) = disk w ++ ops /\
    forallb in_output_root ops = true.
Proof.
  rewrite attempt_cases.
  pose proof (best_map_world lower partial_ratio (track t) (artist t) w)
    as Hworld.
  destruct (beat_search_requests (track t) w) as (rest & _ & _ & _ & _ & Hdisk).
  rewrite <- Hworld in Hdisk.
  destruct (best_map lower partial_ratio (track t) (artist t) w)
    as [[[d|]|e] w1]; cbn [snd] in *.
  - destruct (download_in_root (id d) (artist t) (track t) w1)
      as (ops & Hdl & Hops).
    exists ops. now rewrite Hdl, Hdisk.
  - exists []. now rewrite app_nil_r.
  - exists []. now rewrite app_nil_r.
Qed.

Lemma main_loop_in_root tracks acc w :
  exists ops,
    disk (snd (run_loop tracks acc w)) = disk w ++ ops /\
    forallb in_output_root ops = true.
Proof.
  revert acc w. induction tracks as [|t rest IH]; intros acc w.
  - exists []. cbn. now rewrite app_nil_r.
  - rewrite main_loop_step.
    destruct (attempt_in_root t w) as (ops1 & Hd1 & Ho1).
    destruct (IH (if succeeds lower partial_ratio zipfile t w
                  then (fst acc ++ [label t], snd acc)
                  else (fst acc, snd acc ++ [label t]))
                 (snd (run_attempt t w))) as (ops2 & Hd2 & Ho2).
    exists (ops1 ++ ops2). rewrite Hd2, Hd1, <- app_assoc.
    split; [reflexivity|]. now rewrite forallb_app, Ho1, Ho2.
Qed.

End ReportFacts.

(** X19.  The reports after a run.  A list that is not empty is in its
    file, the labels joined by newlines.  A list that is empty leaves
    its file as it was before the run: a report of an earlier run is
    neither emptied nor removed.  A run over at least one track writes
    at least one of the two files. *)
Theorem reports_are_written_when_not_empty lower partial_ratio zipfile
    tracks w :
  fst (main_and_reports lower partial_ratio zipfile tracks w)
    = fst (main lower partial_ratio zipfile tracks w) /\
  fs_read (disk (snd (main_and_reports lower partial_ratio zipfile tracks w)))
    ["downloaded.txt"%string]
  = (if nonempty (fst (fst (main lower partial_ratio zipfile tracks w)))
     then Some (File (String.concat newline
                        (fst (fst (main lower partial_ratio zipfile tracks w)))))
     else fs_read (disk w) ["downloaded.txt"%string]) /\
  fs_read (disk (snd (main_and_reports lower partial_ratio zipfile tracks w)))
    ["not_found.txt"%string]
  = (if nonempty (snd (fst (main lower partial_ratio zipfile tracks w)))
     then Some (File (String.concat newline
                        (snd (fst (main lower partial_ratio zipfile tracks w)))))
     else fs_read (disk w) ["not_found.txt"%string]) /\
  (tracks <> [] ->
   nonempty (fst (fst (main lower partial_ratio zipfile tracks w)))
   || nonempty (snd (fst (main lower partial_ratio zipfile tracks w)))
   = true).
Proof.
  assert (Hcount :
    List.length (fst (fst (main lower partial_ratio zipfile tracks w))) +
    List.length (snd (fst (main lower partial_ratio zipfile tracks w)))
    = List.length tracks).
  { unfold main. rewrite main_loop_outcomes. cbn [fst snd app].
    rewrite labels_of_length.
    rewrite <- (outcomes_tracks lower partial_ratio zipfile tracks w) at 2.
    now rewrite length_map. }
  destruct (main_loop_in_root lower partial_ratio zipfile tracks ([], []) w)
    as (ops & Hdisk & Hops).
  fold (main lower partial_ratio zipfile tracks w) in Hdisk.
  unfold main_and_reports.
  destruct (main lower partial_ratio zipfile tracks w) as [[d n] w1].
  cbn [fst snd] in *.
  assert (Hd : fs_read (disk w1) ["downloaded.txt"%string]
               = fs_read (disk w) ["downloaded.txt"%string]).
  { rewrite Hdisk. apply fs_read_outside_root; [exact Hops | discriminate]. }
  assert (Hn : fs_read (disk w1) ["not_found.txt"%string]
               = fs_read (disk w) ["not_found.txt"%string]).
  { rewrite Hdisk. apply fs_read_outside_root; [exact Hops | discriminate]. }
  split; [reflexivity|].
  unfold write_reports, bind, fs_do, ret. cbn [fst snd].
  destruct d as [|d1 d]; destruct n as [|n1 n];
    cbn [nonempty snd disk orb]; rewrite ?fs_read_snoc; cbn [fs_step];
    rewrite ?fs_read_snoc; cbn [fs_step path_eqb String.eqb Ascii.eqb
                                  Bool.eqb andb];
    repeat split; auto.
  simpl in Hcount. intros Hne. destruct tracks; [congruence | discriminate].
Qed.

Lemma reports_are_written_when_not_empty_witness :
  fs_read
    (disk (snd (main_and_reports PyStr.ascii_lower (fixed_ratio 100)
                  toy_zipfile [daft_punk]
                  (after_earlier_run
                     [answer 404 []; answer 404 []; answer 404 []]))))
    ["downloaded.txt"%string]
  = Some (File "Old - Song") /\
  fs_read
    (disk (snd (main_and_reports PyStr.ascii_lower (fixed_ratio 100)
                  toy_zipfile [daft_punk]
                  (after_earlier_run
                     [answer 404 []; answer 404 []; answer 404 []]))))
    ["not_found.txt"%string]
  = Some (File "Daft Punk - One More Time").
Proof.
  destruct (reports_are_written_when_not_empty PyStr.ascii_lower
              (fixed_ratio 100) toy_zipfile [daft_punk]
              (after_earlier_run
                 [answer 404 []; answer 404 []; answer 404 []]))
    as (_ & Hd & Hn & _).
  rewrite Hd, Hn. split; reflexivity.
Defined.

(** ** Loading the tracks *)

Lemma append_items_ok items tracks :
  forallb has_artist items = true ->
  append_items items tracks = inr (tracks ++ map first_artist_ref items).
Proof.
  revert tracks. induction items as [|t rest IH]; intros tracks Hall.
  - simpl. now rewrite app_nil_r.
  - simpl in Hall. apply andb_true_iff in Hall. destruct Hall as [Ht Hrest].
    cbn [append_items map]. unfold has_artist in Ht.
    destruct t as [[|a others] title]; [discriminate|].
    cbn [Spotify.artists Spotify.name]. rewrite IH by exact Hrest.
    now rewrite <- app_assoc.
Qed.

Lemma append_items_fails items tracks :
  forallb has_artist items = false ->
  append_items items tracks = inl IndexError.
Proof.
  revert tracks. induction items as [|t rest IH]; intros tracks Hall;
    [discriminate|].
  cbn [append_items]. simpl in Hall.
  destruct t as [[|a others] title]; [reflexivity|].
  cbn [Spotify.artists]. apply IH. exact Hall.
Qed.

Lemma chained_last acct offset before p :
  chained acct offset (before ++ [p]) ->
  saved_tracks acct (offset + 50 * List.length before) = Some p.
Proof.
  revert offset. induction before as [|p0 before IH]; intros offset.
  - cbn. intros [H _]. now rewrite Nat.add_0_r.
  - cbn [app chained List.length]. intros (_ & _ & Hrest).
    apply IH in Hrest. rewrite <- Hrest. f_equal. lia.
Qed.

(** The loop goes through the pages that have a next page, appending
    their items. *)
Lemma fetch_saved_through acct before p offset tracks fuel :
  chained acct offset (before ++ [p]) ->
  forallb (fun pg => forallb has_artist (Spotify.items pg)) before = true ->
  fetch_saved acct (List.length before + fuel) offset tracks =
  fetch_saved acct fuel (offset + 50 * List.length before)
    (tracks ++ map first_artist_ref
                 (List.concat (map Spotify.items before))).
Proof.
  revert offset tracks.
  induction before as [|p0 before IH]; intros offset tracks Hchain Hall.
  - cbn. now rewrite Nat.add_0_r, app_nil_r.
  - cbn [app chained] in Hchain. destruct Hchain as (Hpage & Hnext & Hrest).
    simpl in Hall. apply andb_true_iff in Hall. destruct Hall as [Hp0 Hall].
    cbn [List.length Nat.add fetch_saved]. rewrite Hpage.
    rewrite (append_items_ok _ _ Hp0).
    destruct (Spotify.next p0) as [link|] eqn:Hlink.
    + rewrite (IH _ _ Hrest Hall).
      cbn [map List.concat]. rewrite map_app, app_assoc.
      f_equal. lia.
    + exfalso. apply Hnext; [|reflexivity]. now destruct before.
Qed.

(** X20.  The saved tracks are fetched page by page, at the offsets 0,
    50, 100 and so on, up to the first page without a link to a next
    one.  When every track has an artist, the result holds one entry
    per track, in the order of the pages and of the items in them,
    made of the first artist and the name of the track. *)
Theorem saved_tracks_are_fetched_in_order acct before p fuel :
  chained acct 0 (before ++ [p]) ->
  Spotify.next p = None ->
  forallb (fun pg => forallb has_artist (Spotify.items pg)) (before ++ [p])
    = true ->
  List.length before < fuel ->
  fetch_saved acct fuel 0 [] =
  Tracks (map first_artist_ref
            (List.concat (map Spotify.items (before ++ [p])))).
Proof.
  intros Hchain Hnext Hall Hfuel.
  rewrite forallb_app in Hall. apply andb_true_iff in Hall.
  destruct Hall as [Hbefore Hp]. cbn [forallb] in Hp.
  rewrite andb_true_r in Hp.
  replace fuel with (List.length before + S (fuel - S (List.length before)))
    by lia.
  rewrite (fetch_saved_through acct before p 0 [] _ Hchain Hbefore).
  cbn [fetch_saved]. rewrite (chained_last _ _ _ _ Hchain).
  rewrite (append_items_ok _ _ Hp), Hnext.
  rewrite map_app, concat_app, map_app. cbn [map List.concat app].
  now rewrite app_nil_r.
Qed.

Lemma saved_tracks_are_fetched_in_order_witness :
  fetch_saved (library last_page) 7 0 [] =
  Tracks [{| artist := Some "Daft Punk"%string; track := "Get Lucky" |};
          {| artist := Some "AC/DC"%string; track := "T.N.T." |}].
Proof.
  apply (saved_tracks_are_fetched_in_order (library last_page)
           [first_page] last_page 7).
  - cbn. intuition (try discriminate; congruence).
  - reflexivity.
  - reflexivity.
  - cbn. lia.
Defined.

(** X21.  A saved track without artists stops the fetch with an
    [IndexError], on whatever page it stands: the tracks collected so
    far are lost. *)
Theorem track_without_artist_stops_fetch acct before p fuel :
  chained acct 0 (before ++ [p]) ->
  forallb (fun pg => forallb has_artist (Spotify.items pg)) before = true ->
  forallb has_artist (Spotify.items p) = false ->
  List.length before < fuel ->
  fetch_saved acct fuel 0 [] = Fails IndexError.
Proof.
  intros Hchain Hbefore Hp Hfuel.
  replace fuel with (List.length before + S (fuel - S (List.length before)))
    by lia.
  rewrite (fetch_saved_through acct before p 0 [] _ Hchain Hbefore).
  cbn [fetch_saved]. rewrite (chained_last _ _ _ _ Hchain).
  now rewrite (append_items_fails _ _ Hp).
Qed.

Lemma track_without_artist_stops_fetch_witness :
  fetch_saved (library orphan_page) 7 0 [] = Fails IndexError.
Proof.
  apply (track_without_artist_stops_fetch (library orphan_page)
           [first_page] orphan_page 7).
  - cbn. intuition (try discriminate; congruence).
  - reflexivity.
  - reflexivity.
  - cbn. lia.
Defined.

(** X22.  The track cache after a load.  [load_tracks] sends no request
    to the catalogue.  A cache file that exists is left as it is,
    whatever the load comes to.  When there was none, the file holds
    the dump of the tracks after a load that returned tracks fetched
    from the library, and there still is none after a load that did
    not return tracks. *)
Theorem track_cache_after_load json_load json_dump acct fuel w res w' :
  load_tracks json_load json_dump acct fuel w = (res, w') ->
  sent w' = sent w /\
  (fs_read (disk w) [TRACK_FILE] <> None ->
   fs_read (disk w') [TRACK_FILE] = fs_read (disk w) [TRACK_FILE]) /\
  (fs_read (disk w) [TRACK_FILE] = None ->
   match res with
   | Tracks tracks =>
       fetch_saved acct fuel 0 [] = Tracks tracks /\
       fs_read (disk w') [TRACK_FILE] = Some (File (json_dump tracks))
   | _ => fs_read (disk w') [TRACK_FILE] = None
   end).
Proof.
  unfold load_tracks.
  destruct (fs_read (disk w) [TRACK_FILE]) as [[|data]|] eqn:Hcache.
  - intros [= <- <-]. repeat split; auto. discriminate.
  - destruct (json_load data); intros [= <- <-]; repeat split; auto;
      discriminate.
  - assert (Hsame : forall e : LoadResult,
              match e with Tracks _ => False | _ => True end ->
              sent w = sent w /\
              (@None Node <> None ->
               fs_read (disk w) [TRACK_FILE] = None) /\
              (@None Node = None ->
               match e with
               | Tracks tracks =>
                   fetch_saved acct fuel 0 [] = Tracks tracks /\
                   fs_read (disk w) [TRACK_FILE] = Some (File (json_dump tracks))
               | _ => fs_read (disk w) [TRACK_FILE] = None
               end)).
    { intros e He. repeat split; auto. destruct e; auto. contradiction. }
    destruct (redirect_code acct) as [code|];
      [|intros [= <- <-]; now apply (Hsame (Fails SystemExit))].
    destruct (PyStr.is_empty code);
      [intros [= <- <-]; now apply (Hsame (Fails SystemExit))|].
    destruct (access_token acct code);
      [|intros [= <- <-]; now apply (Hsame (Fails SpotifyError))].
    destruct (fetch_saved acct fuel 0 []) as [tracks|e|] eqn:Hfetch;
      intros [= <- <-].
    + cbn [sent disk]. rewrite fs_read_snoc. cbn [fs_step].
      rewrite path_eqb_refl. repeat split; auto. congruence.
    + now apply (Hsame (Fails e)).
    + now apply (Hsame Running).
Qed.

Lemma track_cache_after_load_witness :
  fs_read
    (disk (snd (load_tracks toy_load toy_dump (library last_page) 7
                  empty_world)))
    [TRACK_FILE]
  = Some (File (toy_dump
                  [{| artist := Some "Daft Punk"%string; track := "Get Lucky" |};
                   {| artist := Some "AC/DC"%string; track := "T.N.T." |}])).
Proof.
  destruct (track_cache_after_load toy_load toy_dump (library last_page) 7
              empty_world
              (fst (load_tracks toy_load toy_dump (library last_page) 7
                      empty_world))
              (snd (load_tracks toy_load toy_dump (library last_page) 7
                      empty_world)))
    as (_ & _ & H).
  - reflexivity.
  - apply H. reflexivity.
Defined.

(** X23.  A track list that was loaded once is loaded again from the
    cache: after a load that returned tracks, every later load returns
    the same tracks and changes nothing, whatever the library holds by
    then, provided that reading the dump of these tracks gives them
    back. *)
Theorem loaded_tracks_come_from_cache_afterwards json_load json_dump acct fuel
    w tracks w' :
  load_tracks json_load json_dump acct fuel w = (Tracks tracks, w') ->
  json_load (json_dump tracks) = Return tracks ->
  forall acct' fuel',
    load_tracks json_load json_dump acct' fuel' w' = (Tracks tracks, w').
Proof.
  intros Hload Hcodec acct' fuel'.
  unfold load_tracks in Hload.
  destruct (fs_read (disk w) [TRACK_FILE]) as [[|data]|] eqn:Hcache.
  - discriminate Hload.
  - destruct (json_load data) as [l|e] eqn:Hdata; [|discriminate Hload].
    injection Hload as -> <-.
    unfold load_tracks. now rewrite Hcache, Hdata.
  - destruct (redirect_code acct) as [code|]; [|discriminate Hload].
    destruct (PyStr.is_empty code); [discriminate Hload|].
    destruct (access_token acct code); [|discriminate Hload].
    destruct (fetch_saved acct fuel 0 []) as [l| |]; try discriminate Hload.
    injection Hload as -> <-.
    unfold load_tracks. cbn [disk].
    rewrite fs_read_snoc. cbn [fs_step]. rewrite path_eqb_refl.
    now rewrite Hcodec.
Qed.

Lemma loaded_tracks_come_from_cache_afterwards_witness :
  load_tracks toy_load toy_dump (library orphan_page) 0
    (snd (load_tracks toy_load toy_dump (library last_page) 7 empty_world))
  = (Tracks [{| artist := Some "Daft Punk"%string; track := "Get Lucky" |};
             {| artist := Some "AC/DC"%string; track := "T.N.T." |}],
     snd (load_tracks toy_load toy_dump (library last_page) 7 empty_world)).
Proof.
  apply (loaded_tracks_come_from_cache_afterwards toy_load toy_dump
           (library last_page) 7 empty_world).
  - reflexivity.
  - reflexivity.
Defined.

(** ** The sanitizer *)

Lemma keep_all f s : PyStr.all_chars f s = true -> PyStr.keep f s = s.
Proof.
  induction s as [|c s IH]; simpl; [reflexivity|].
  intros H. apply andb_true_iff in H. destruct H as [Hc Hs].
  now rewrite Hc, IH.
Qed.

Lemma drop_leading_none f s :
  PyStr.all_chars (fun c => negb (f c)) s = true -> PyStr.drop_leading f s = s.
Proof.
  destruct s as [|c s]; simpl; [reflexivity|].
  intros H. apply andb_true_iff in H. destruct H as [Hc _].
  apply negb_true_iff in Hc. now rewrite Hc.
Qed.

Lemma drop_trailing_none f s :
  PyStr.all_chars (fun c => negb (f c)) s = true -> PyStr.drop_trailing f s = s.
Proof.
  induction s as [|c s IH]; simpl; [reflexivity|].
  intros H. apply andb_true_iff in H. destruct H as [Hc Hs].
  apply negb_true_iff in Hc. now rewrite Hc, IH.
Qed.

Lemma map_chars_same f g s :
  (forall c, f c = true -> g c = c) ->
  PyStr.all_chars f s = true -> PyStr.map_chars g s = s.
Proof.
  intros Hg. induction s as [|c s IH]; simpl; [reflexivity|].
  intros H. apply andb_true_iff in H. destruct H as [Hc Hs].
  now rewrite (Hg c Hc), IH.
Qed.

Lemma plain_char_allowed c : plain_char c = true -> allowed c = true.
Proof. each_char c. Qed.

Lemma plain_char_no_space c :
  plain_char c = true -> negb (PyStr.is_space c) = true.
Proof. each_char c. Qed.

Lemma plain_char_no_blank c :
  plain_char c = true -> (if Ascii.eqb c " " then "_"%char else c) = c.
Proof. each_char c. Qed.

(** X24.  A name made of letters, digits and hyphens only is its own
    cleaned form, so the directory of such an artist and track is
    named [<artist>-<track>] as they are.  In general cleaning never
    makes a name longer. *)
Theorem clean_keeps_plain_names s :
  (PyStr.all_chars plain_char s = true -> clean s = s) /\
  String.length (clean s) <= String.length s.
Proof.
  split.
  - intros Hplain. unfold clean, PyStr.strip, PyStr.replace.
    rewrite keep_all
      by (revert Hplain; apply PyStrFacts.all_chars_weaken;
          exact plain_char_allowed).
    assert (Hspace : PyStr.all_chars (fun c => negb (PyStr.is_space c)) s
                     = true).
    { revert Hplain. apply PyStrFacts.all_chars_weaken.
      exact plain_char_no_space. }
    rewrite (drop_leading_none _ _ Hspace), (drop_trailing_none _ _ Hspace).
    apply map_chars_same with (f := plain_char); [|exact Hplain].
    exact plain_char_no_blank.
  - unfold clean, PyStr.strip, PyStr.replace.
    assert (Hmap : forall g t,
              String.length (PyStr.map_chars g t) = String.length t).
    { intros g t. induction t as [|c t IH]; simpl; [reflexivity | now rewrite IH]. }
    assert (Htrail : forall f t,
              String.length (PyStr.drop_trailing f t) <= String.length t).
    { intros f t. induction t as [|c t IH]; simpl; [lia|].
      destruct (f c && PyStr.is_empty (PyStr.drop_trailing f t)); simpl; lia. }
    assert (Hlead : forall f t,
              String.length (PyStr.drop_leading f t) <= String.length t).
    { intros f t. induction t as [|c t IH]; simpl; [lia|].
      destruct (f c); simpl; lia. }
    assert (Hkeep : forall f t,
              String.length (PyStr.keep f t) <= String.length t).
    { intros f t. induction t as [|c t IH]; simpl; [lia|].
      destruct (f c); simpl; lia. }
    rewrite Hmap.
    eapply Nat.le_trans; [apply Htrail|].
    eapply Nat.le_trans; [apply Hlead|]. apply Hkeep.
Qed.

Lemma clean_keeps_plain_names_witness : clean "Blink-182" = "Blink-182"%string.
Proof.
  apply (proj1 (clean_keeps_plain_names "Blink-182")). reflexivity.
Defined.
